(** * dpy-voice-stalker: the record classifier and the interval reconstructor

    A shallow embedding of [src/bot.py]:
    - the three compiled patterns [joined_re], [left_re], [moved_re] and
      [StalkEvent.from_embed] (lines 31-74),
    - [process_events] (lines 83-106),
    - the duration filter applied by [stalk_csv] and [stalk_plot]
      (lines 144 and 186).

    Python [str] values are lists of characters.  A character is a Rocq
    [ascii], read as the code point of the same number (U+0000..U+00FF).
    A [datetime] is the number of microseconds since a fixed origin, the
    resolution of Python's [datetime]; a [timedelta] is a difference of two
    of them, and [total_seconds() > n] is the comparison of that difference
    with [n] seconds (the float returned by [total_seconds] is the correctly
    rounded quotient by 10^6, and rounding is monotone, so the comparison
    with a whole number of seconds is exact). *)

From Stdlib Require Import ZArith Ascii String Sorted.

From stdpp Require Import base option list gmap sets pretty.

Local Open Scope Z_scope.

(** ** Characters and strings *)

Definition str := list ascii.

(** Literal text, written as a Rocq string of ASCII characters. *)
Definition txt (x : string) : str := list_ascii_of_string x.

Definition code (c : ascii) : N := N_of_ascii c.

(** [\d] on a [str] pattern: the decimal digits (category Nd).  Below
    U+0100 these are "0" .. "9". *)
Definition is_digit (c : ascii) : bool :=
  ((48 <=? code c) && (code c <=? 57))%N.

(** [\w] on a [str] pattern: [c.isalnum()] or ["_"].  Below U+0100 the
    alphanumeric characters are the ASCII letters and digits, U+00AA,
    U+00B2, U+00B3, U+00B5, U+00B9, U+00BA, U+00BC..U+00BE, and the letters
    U+00C0..U+00FF without U+00D7 and U+00F7. *)
Definition is_alnum (c : ascii) : bool :=
  let n := code c in
  (((48 <=? n) && (n <=? 57))
   || ((65 <=? n) && (n <=? 90))
   || ((97 <=? n) && (n <=? 122))
   || (n =? 170) || (n =? 178) || (n =? 179) || (n =? 181)
   || (n =? 185) || (n =? 186)
   || ((188 <=? n) && (n <=? 190))
   || ((192 <=? n) && (n <=? 255) && negb (n =? 215) && negb (n =? 247)))%N.

Definition is_word (c : ascii) : bool :=
  is_alnum c || (code c =? 95)%N.

(** [.] without the DOTALL flag: any character but the line feed. *)
Definition is_dot (c : ascii) : bool := negb (code c =? 10)%N.

(** [int(uid)] on a string of decimal digits. *)
Definition digit_value (c : ascii) : Z := Z.of_N (code c) - 48.

Definition int (x : str) : Z :=
  fold_left (fun acc c => 10 * acc + digit_value c) x 0.

(** ** The pattern fragment used by the three expressions

    [re.match] is a backtracking matcher anchored at the start of the text
    and not at its end.  The patterns of this program use literal
    characters, one optional character ([!?]), capturing groups holding a
    greedy one-or-more repetition of a character class ([(\d+)], [(\w+)])
    and [.]. *)

Inductive item :=
| Chr (c : ascii)
| OptChr (c : ascii)
| Group (cls : ascii -> bool)
| Dot.

Definition lit (x : string) : list item := map Chr (txt x).

(** [cls+] followed by the rest of the pattern [k]: take one more character
    of the class while that leads to a match, and give characters back one
    at a time otherwise.  [acc] is the text taken so far. *)
Fixpoint greedy_plus {R} (cls : ascii -> bool) (k : str -> str -> option R)
    (acc : str) (t : str) : option R :=
  match t with
  | c :: t' =>
      if cls c then
        match greedy_plus cls k (acc ++ [c]) t' with
        | Some r => Some r
        | None => k (acc ++ [c]) t'
        end
      else None
  | [] => None
  end.

(** [re_match p t]: the groups of the first match of [p] at the start of
    [t], in the order of [m.groups()], or [None]. *)
Fixpoint re_match (p : list item) (t : str) : option (list str) :=
  match p with
  | [] => Some []
  | Chr c :: p' =>
      match t with
      | c' :: t' => if Ascii.eqb c c' then re_match p' t' else None
      | [] => None
      end
  | OptChr c :: p' =>
      match t with
      | c' :: t' =>
          if Ascii.eqb c c' then
            match re_match p' t' with
            | Some g => Some g
            | None => re_match p' t
            end
          else re_match p' t
      | [] => re_match p' t
      end
  | Group cls :: p' =>
      greedy_plus cls
        (fun run rest =>
           match re_match p' rest with
           | Some g => Some (run :: g)
           | None => None
           end) [] t
  | Dot :: p' =>
      match t with
      | c :: t' => if is_dot c then re_match p' t' else None
      | [] => None
      end
  end.

Definition mention : list item := lit "<@" ++ [OptChr "!"%char; Group is_digit].

Definition joined_re : list item :=
  mention ++ lit "> joined **" ++ [Group is_word] ++ lit "**" ++ [Dot].

Definition left_re : list item :=
  mention ++ lit "> left **" ++ [Group is_word] ++ lit "**" ++ [Dot].

Definition moved_re : list item :=
  mention ++ lit "> moved from **" ++ [Group is_word] ++ lit "** to **"
    ++ [Group is_word] ++ lit "**" ++ [Dot].

(** ** Events and the classifier *)

Inductive StalkType := join | leave.

Definition datetime := Z.

Record StalkEvent := mkStalkEvent {
  who : Z;
  when : datetime;
  action : StalkType
}.

(** The two fields of [discord.Embed] the classifier reads; [None] is
    [Embed.Empty]. *)
Record Embed := mkEmbed {
  description : option str;
  timestamp : option datetime
}.

Definition str_eqb (a b : str) : bool := bool_decide (a = b).

(** Lines 49-66: the patterns are tried in order; the result is the user
    id as matched, the channel compared on line 68 and the kind of event. *)
Definition match_record (d target_channel : str) : option (str * str * StalkType) :=
  match re_match joined_re d with
  | Some [uid; chan] => Some (uid, chan, join)
  | Some _ => None
  | None =>
      match re_match left_re d with
      | Some [uid; chan] => Some (uid, chan, leave)
      | Some _ => None
      | None =>
          match re_match moved_re d with
          | Some [uid; from_chan; dest_chan] =>
              if str_eqb dest_chan target_channel then
                Some (uid, dest_chan, join)
              else if str_eqb from_chan target_channel then
                Some (uid, dest_chan, leave)
              else None
          | _ => None
          end
      end
  end.

Definition from_embed (emb : Embed) (target_channel : str) : option StalkEvent :=
  match description emb with
  | None => None
  | Some d =>
      match match_record d target_channel with
      | None => None
      | Some (uid, chan, type) =>
          if negb (str_eqb chan target_channel) then None
          else
            match timestamp emb with
            | None => None
            | Some ts => Some (mkStalkEvent (int uid) ts type)
            end
      end
  end.

(** ** The interval reconstructor *)

Record ConnectedDuration := mkConnectedDuration {
  cd_who : Z;
  joined : datetime;
  left : datetime
}.

(** [looking_at] is a Python [dict]: its keys are unique and it is iterated
    in insertion order, so it is an association list with the three
    operations the code uses. *)
Definition dict := list (Z * datetime).

Fixpoint dict_get (k : Z) (d : dict) : option datetime :=
  match d with
  | [] => None
  | (k', v) :: d' => if bool_decide (k' = k) then Some v else dict_get k d'
  end.

(** [d[k] = v]: an existing key keeps its place, a new key goes last. *)
Fixpoint dict_set (k : Z) (v : datetime) (d : dict) : dict :=
  match d with
  | [] => [(k, v)]
  | (k', v') :: d' =>
      if bool_decide (k' = k) then (k', v) :: d' else (k', v') :: dict_set k v d'
  end.

(** What is left of [d] after [d.pop(k)]. *)
Fixpoint dict_del (k : Z) (d : dict) : dict :=
  match d with
  | [] => []
  | (k', v) :: d' =>
      if bool_decide (k' = k) then d' else (k', v) :: dict_del k d'
  end.

Definition seconds (n : Z) : Z := n * 1000000.

(** The local variables of [process_events]. *)
Record scan := mkScan {
  looking_at : dict;
  durations : list ConnectedDuration;
  seen : gset Z
}.

Definition scan_init : scan := mkScan [] [] ∅.

(** One turn of the loop over [evts] (lines 89-98). *)
Definition scan_step (start_time : datetime) (st : scan) (evt : StalkEvent) : scan :=
  let st' :=
    match action evt with
    | join =>
        mkScan (dict_set (who evt) (when evt) (looking_at st))
               (durations st) (seen st)
    | leave =>
        match dict_get (who evt) (looking_at st) with
        | Some j =>
            mkScan (dict_del (who evt) (looking_at st))
                   (durations st ++ [mkConnectedDuration (who evt) j (when evt)])
                   (seen st)
        | None =>
            if bool_decide (who evt ∉ seen st) then
              mkScan (looking_at st)
                     (durations st
                        ++ [mkConnectedDuration (who evt) start_time (when evt)])
                     (seen st)
            else st
        end
    end in
  mkScan (looking_at st') (durations st') ({[ who evt ]} ∪ seen st').

(** The loop over [looking_at.items()] (lines 100-104). *)
Fixpoint close_open (end_time : datetime) (items : dict)
    (ds : list ConnectedDuration) : list ConnectedDuration :=
  match items with
  | [] => ds
  | (user, j) :: items' =>
      if bool_decide (seconds (60 * 60 * 12) < end_time - j) then
        close_open end_time items' ds
      else
        close_open end_time items' (ds ++ [mkConnectedDuration user j end_time])
  end.

Definition scan_events (start_time : datetime) (evts : list StalkEvent) : scan :=
  fold_left (scan_step start_time) evts scan_init.

Definition process_events (evts : list StalkEvent)
    (start_time end_time : datetime) : list ConnectedDuration :=
  let st := scan_events start_time evts in
  close_open end_time (looking_at st) (durations st).

(** ** The duration filter

    [[d for d in durations if (d.left - d.joined).total_seconds() > 600]],
    the same comprehension in [stalk_csv] and in [stalk_plot]. *)
Fixpoint keep_long (ds : list ConnectedDuration) : list ConnectedDuration :=
  match ds with
  | [] => []
  | d :: ds' =>
      if bool_decide (seconds 600 < left d - joined d) then d :: keep_long ds'
      else keep_long ds'
  end.

(** * Vocabulary of the statements *)

(** ** Record texts, as the relay writes them *)

(** A text [\d+] takes whole: one decimal digit or more. *)
Definition digits (x : str) : Prop :=
  x <> [] /\ Forall (fun c => is_digit c = true) x.

(** A text [\w+] takes whole: a channel name. *)
Definition word (x : str) : Prop :=
  x <> [] /\ Forall (fun c => is_word c = true) x.

(** [<@uid>] or, with the nickname marker, [<@!uid>]. *)
Definition mention_text (nick : bool) (uid : str) : str :=
  txt "<@" ++ (if nick then txt "!" else []) ++ uid ++ txt ">".

(** The last character is a parameter; the relay writes ["."]. *)
Definition joined_text (nick : bool) (uid chan : str) (c : ascii) : str :=
  mention_text nick uid ++ txt " joined **" ++ chan ++ txt "**" ++ [c].

Definition left_text (nick : bool) (uid chan : str) (c : ascii) : str :=
  mention_text nick uid ++ txt " left **" ++ chan ++ txt "**" ++ [c].

Definition moved_text (nick : bool) (uid from_chan to_chan : str) (c : ascii) : str :=
  mention_text nick uid ++ txt " moved from **" ++ from_chan
    ++ txt "** to **" ++ to_chan ++ txt "**" ++ [c].

(** ** Events, intervals and windows *)

(** Events and intervals, written as the specification writes them. *)
Definition Join (u : Z) (t : datetime) : StalkEvent := mkStalkEvent u t join.

Definition Leave (u : Z) (t : datetime) : StalkEvent := mkStalkEvent u t leave.

Definition Interval (u : Z) (a b : datetime) : ConnectedDuration :=
  mkConnectedDuration u a b.

(** Durations, in the unit of [datetime]. *)
Definition hours (n : Z) : Z := seconds (n * 60 * 60).

(** The interval lasts strictly more than 600 seconds. *)
Definition long_enough (d : ConnectedDuration) : Prop :=
  seconds 600 < left d - joined d.

(** [a] ends before [b] starts, when they are intervals of one user. *)
Definition before (a b : ConnectedDuration) : Prop :=
  cd_who a = cd_who b -> left a <= joined b.

(** The half-open intervals [[joined, left)] of [a] and [b] meet. *)
Definition overlap (a b : ConnectedDuration) : Prop :=
  joined a < left b /\ joined b < left a.

(** The event happened between the bounds of the window. *)
Definition in_window (start_time end_time : datetime) (evt : StalkEvent) : Prop :=
  start_time <= when evt /\ when evt <= end_time.

(** The events come in non-decreasing order of their times. *)
Definition time_ordered (evts : list StalkEvent) : Prop :=
  Sorted (fun e1 e2 => when e1 <= when e2) evts.

(** The last event of user [u] in [evts], if there is one. *)
Definition last_event (u : Z) (evts : list StalkEvent) : option StalkEvent :=
  last (filter (fun e => who e = u) evts).

(** No user is first seen leaving. *)
Definition joins_first (evts : list StalkEvent) : Prop :=
  forall pre e post,
    evts = pre ++ e :: post -> action e = leave -> who e ∈ (who <$> pre).

(** * The two commands

    [stalk_csv] and [stalk_plot] read the history of the relay channel,
    classify the first embed of every message of the relay, reconstruct the
    intervals and keep the long ones (lines 123-144 and 165-186).  The
    history is what [stalking_channel.history] hands over, oldest message
    first. *)

Record Message := mkMessage {
  author_id : Z;
  embeds : list Embed
}.

Definition relay_id : Z := 641596449355726858.

(** One turn of the loop over the history. *)
Definition read_message (channel_name : str) (events : list StalkEvent)
    (message : Message) : list StalkEvent :=
  if negb (bool_decide (author_id message = relay_id)) then events
  else
    match embeds message with
    | [] => events
    | stalk_embed :: _ =>
        match from_embed stalk_embed channel_name with
        | None => events
        | Some event => events ++ [event]
        end
    end.

Definition read_history (history : list Message) (channel_name : str)
    : list StalkEvent :=
  fold_left (read_message channel_name) history [].

(** [durations] after line 144 (186), for the time [now] of the call. *)
Definition stalk_durations (history : list Message) (channel_name : str)
    (now : datetime) (delta_hours : Z) : list ConnectedDuration :=
  let start_time := now - hours delta_hours in
  keep_long (process_events (read_history history channel_name) start_time now).

(** [str] of an [int], also in [f"C{category}"]: decimal digits, after a
    minus sign for a negative number. *)
Definition str_int (n : Z) : str := list_ascii_of_string (pretty n).

(** The rows [stalk_csv] hands to the writer, in the order of the columns;
    [isoformat] is [datetime.isoformat]. *)
Definition csv_rows (isoformat : datetime -> str)
    (ds : list ConnectedDuration) : list (str * str * str) :=
  map (fun duration =>
         (str_int (cd_who duration), isoformat (joined duration),
          isoformat (left duration))) ds.

(** [counter()]: a call of [increment] on the counter [i] gives the new
    counter and the value returned (lines 109-117). *)
Definition increment (i : Z) : Z * Z := (i + 1, i + 1).

(** [categories[k]] on [defaultdict(counter())]: the value of a known key;
    a new key gets the next value of the counter and is stored. *)
Definition categories_get (k : Z) (categories : dict) (i : Z) : dict * Z * Z :=
  match dict_get k categories with
  | Some category => (categories, i, category)
  | None =>
      let '(i', category) := increment i in
      (dict_set k category categories, i', category)
  end.

Section Plot.

(** What the loop of [stalk_plot] takes from outside: [bot.get_user],
    [str] of a user, [date2num], and the floats [category - 0.4] and
    [category + 0.4]. *)
Context {User F : Type}.
Variable get_user : Z -> option User.
Variable user_name : User -> str.
Variable date2num : datetime -> F.
Variables below above : Z -> F.

(** The local variables of lines 188-192, with the counter behind
    [categories]. *)
Record plot := mkPlot {
  categories : dict;
  counter_i : Z;
  seen_names : gset Z;
  name_order : list str;
  vertices : list (list (F * F));
  colours : list str
}.

Definition plot_init : plot := mkPlot [] 0 ∅ [] [] [].

Definition rectangle (duration : ConnectedDuration) (category : Z)
    : list (F * F) :=
  [ (date2num (joined duration), below category);
    (date2num (joined duration), above category);
    (date2num (left duration), above category);
    (date2num (left duration), below category);
    (date2num (joined duration), below category) ].

Definition colour_of (category : Z) : str := txt "C" ++ str_int category.

(** One turn of the loop of lines 196-215. *)
Definition plot_step (st : plot) (duration : ConnectedDuration) : plot :=
  let named : option (gset Z * list str) :=
    if bool_decide (cd_who duration ∉ seen_names st) then
      match get_user (cd_who duration) with
      | None => None
      | Some user =>
          Some ({[ cd_who duration ]} ∪ seen_names st,
                name_order st ++ [user_name user])
      end
    else Some (seen_names st, name_order st) in
  match named with
  | None => st
  | Some (seen', names') =>
      let '(categories', i', category) :=
        categories_get (cd_who duration) (categories st) (counter_i st) in
      mkPlot categories' i' seen' names'
             (vertices st ++ [rectangle duration category])
             (colours st ++ [colour_of category])
  end.

Definition plot_loop (ds : list ConnectedDuration) : plot :=
  fold_left plot_step ds plot_init.

(** The arguments of [set_yticks] and [set_yticklabels]. *)
Definition yticks (st : plot) : list Z := (categories st).*2.
Definition yticklabels (st : plot) : list str := name_order st.

(** The intervals the loop draws: those of the users [get_user] knows. *)
Definition drawn (ds : list ConnectedDuration) : list ConnectedDuration :=
  filter (fun d => is_Some (get_user (cd_who d))) ds.

(** What holds of the loop after the intervals [ds]. *)
Definition plot_inv (ds : list ConnectedDuration) (st : plot) : Prop :=
  NoDup (categories st).*1
  /\ (categories st).*2 = Z.of_nat <$> seq 1 (length (categories st))
  /\ counter_i st = Z.of_nat (length (categories st))
  /\ (forall u, u ∈ seen_names st <-> u ∈ (categories st).*1)
  /\ Forall2 (fun u name => exists user, get_user u = Some user
                                        /\ name = user_name user)
       (categories st).*1 (name_order st)
  /\ Forall2 (fun d v => exists c, dict_get (cd_who d) (categories st) = Some c
                                   /\ v = rectangle d c)
       (drawn ds) (vertices st)
  /\ Forall2 (fun d col => exists c, dict_get (cd_who d) (categories st) = Some c
                                     /\ col = colour_of c)
       (drawn ds) (colours st).

End Plot.

(** * Definitions used by the proofs *)

(** The event a message of the history adds, if any. *)
Definition message_event (channel_name : str) (message : Message)
    : option StalkEvent :=
  if bool_decide (author_id message = relay_id) then
    match head (embeds message) with
    | Some stalk_embed => from_embed stalk_embed channel_name
    | None => None
    end
  else None.


(** The longest run of characters of [cls] at the start of [t], and what
    follows it. *)
Fixpoint span (cls : ascii -> bool) (t : str) : str * str :=
  match t with
  | c :: t' =>
      if cls c then let '(run, rest) := span cls t' in (c :: run, rest)
      else ([], t)
  | [] => ([], [])
  end.

(** Matching without backtracking: the optional character is taken when it
    is there, a group takes the longest run of its class.  The result is
    the groups and the text left after the match. *)
Fixpoint det_match (p : list item) (t : str) : option (list str * str) :=
  match p with
  | [] => Some ([], t)
  | Chr c :: p' =>
      match t with
      | c' :: t' => if Ascii.eqb c c' then det_match p' t' else None
      | [] => None
      end
  | OptChr c :: p' =>
      match t with
      | c' :: t' => if Ascii.eqb c c' then det_match p' t' else det_match p' t
      | [] => det_match p' t
      end
  | Group cls :: p' =>
      match span cls t with
      | ([], _) => None
      | (run, rest) =>
          match det_match p' rest with
          | Some (g, r) => Some (run :: g, r)
          | None => None
          end
      end
  | Dot :: p' =>
      match t with
      | c :: t' => if is_dot c then det_match p' t' else None
      | [] => None
      end
  end.

(** Every group is followed by a literal character outside its class, and
    every optional character by a group whose class excludes it. *)
Fixpoint unambiguous (p : list item) : Prop :=
  match p with
  | [] => True
  | Group cls :: p' =>
      match p' with Chr c :: _ => cls c = false | _ => False end
      /\ unambiguous p'
  | OptChr c :: p' =>
      match p' with Group cls :: _ => cls c = false | _ => False end
      /\ unambiguous p'
  | _ :: p' => unambiguous p'
  end.

(** What the three patterns have in common. *)
Definition after_mention : list item := mention ++ lit "> ".

(** The dictionary without its order. *)
Definition dict_map (d : dict) : gmap Z datetime := list_to_map d.

(** What one event does to the dictionary. *)
Definition dict_op (evt : StalkEvent) (d : dict) : dict :=
  match action evt with
  | join => dict_set (who evt) (when evt) d
  | leave => dict_del (who evt) d
  end.

(** The same on the dictionary without its order. *)
Definition map_op (evt : StalkEvent) (m : gmap Z datetime) : gmap Z datetime :=
  match action evt with
  | join => <[who evt := when evt]> m
  | leave => delete (who evt) m
  end.

(** The intervals one event appends, given the open join of its user and
    whether the user was seen before. *)
Definition emit (start_time : datetime) (open : option datetime) (known : bool)
    (evt : StalkEvent) : list ConnectedDuration :=
  match action evt with
  | join => []
  | leave =>
      match open with
      | Some j => [mkConnectedDuration (who evt) j (when evt)]
      | None =>
          if known then []
          else [mkConnectedDuration (who evt) start_time (when evt)]
      end
  end.

(** The intervals [evt] appends in the state [st]. *)
Definition emitted (start_time : datetime) (st : scan) (evt : StalkEvent)
    : list ConnectedDuration :=
  emit start_time (dict_get (who evt) (looking_at st))
    (bool_decide (who evt ∈ seen st)) evt.

(** The interval the last loop appends for one entry of the dictionary. *)
Definition close_item (end_time : datetime) (item : Z * datetime)
    : option ConnectedDuration :=
  if bool_decide (seconds (60 * 60 * 12) < end_time - item.2) then None
  else Some (mkConnectedDuration item.1 item.2 end_time).

(** Two states of the scan that differ only in the order of the dictionary
    and of the intervals emitted so far. *)
Definition scan_equiv (st1 st2 : scan) : Prop :=
  dict_map (looking_at st1) = dict_map (looking_at st2)
  /\ NoDup (looking_at st1).*1 /\ NoDup (looking_at st2).*1
  /\ durations st1 ≡ₚ durations st2
  /\ seen st1 = seen st2.

(** What holds of the scan after an event of time [now], when the events
    come in the order of their times. *)
Definition scan_inv (end_time now : datetime) (st : scan) : Prop :=
  NoDup (looking_at st).*1
  /\ (forall u j, (u, j) ∈ looking_at st -> j <= now /\ j <= end_time)
  /\ (forall u j d, (u, j) ∈ looking_at st -> d ∈ durations st ->
                    cd_who d = u -> left d <= j)
  /\ (forall d, d ∈ durations st ->
                joined d <= left d /\ left d <= now /\ cd_who d ∈ seen st)
  /\ ForallOrdPairs before (durations st).

(** * Properties of the matcher

    In the three patterns every group is followed by a literal character
    outside its class, and the optional character by a group whose class
    excludes it.  For such patterns backtracking never finds a second way
    to match, and the matcher agrees with a scan that takes the optional
    character when it is there and the longest run of each class. *)

Lemma span_app cls run c rest :
  Forall (fun x => cls x = true) run -> cls c = false ->
  span cls (run ++ c :: rest) = (run, c :: rest).
Proof.
  intros Hrun Hc. induction Hrun as [|x run Hx _ IH]; simpl.
  - by rewrite Hc.
  - by rewrite Hx, IH.
Qed.

Lemma span_spec cls t run rest :
  span cls t = (run, rest) ->
  t = run ++ rest /\ Forall (fun x => cls x = true) run
  /\ match rest with c :: _ => cls c = false | [] => True end.
Proof.
  revert run rest. induction t as [|c t IH]; intros run rest; simpl.
  - intros [= <- <-]. by repeat split.
  - destruct (cls c) eqn:Hc.
    + destruct (span cls t) as [run' rest'] eqn:Hs. intros [= <- <-].
      destruct (IH _ _ eq_refl) as (-> & Hall & Hrest).
      repeat split; [by constructor | done].
    + intros [= <- <-]. by repeat split.
Qed.

(** A group followed by something that needs a character outside the class
    takes the longest run. *)
Lemma greedy_plus_span {R} cls (k : str -> str -> option R) acc t :
  (forall a c t', cls c = true -> k a (c :: t') = None) ->
  (forall a, k a [] = None) ->
  greedy_plus cls k acc t =
    match span cls t with
    | ([], _) => None
    | (run, rest) => k (acc ++ run) rest
    end.
Proof.
  intros Hk Hnil. revert acc. induction t as [|c t IH]; intros acc; simpl; [done|].
  destruct (cls c) eqn:Hc; [|done].
  rewrite IH. destruct (span cls t) as [run rest] eqn:Hs.
  destruct run as [|x run].
  - apply span_spec in Hs as (-> & _ & _). done.
  - rewrite <- (assoc_L (++)). simpl.
    destruct (k (acc ++ c :: x :: run) rest) eqn:Hkk; [done|].
    apply span_spec in Hs as (-> & Hall & _).
    apply Forall_cons in Hall as [Hx _]. simpl. by apply Hk.
Qed.

Lemma re_match_opt c p t :
  re_match (OptChr c :: p) t =
    match t with
    | c' :: t' =>
        if Ascii.eqb c c' then
          match re_match p t' with Some g => Some g | None => re_match p t end
        else re_match p t
    | [] => re_match p t
    end.
Proof. by destruct t. Qed.

Lemma re_match_group cls p t :
  re_match (Group cls :: p) t =
    greedy_plus cls
      (fun run rest =>
         match re_match p rest with Some g => Some (run :: g) | None => None end)
      [] t.
Proof. done. Qed.

Lemma det_match_opt c p t :
  det_match (OptChr c :: p) t =
    match t with
    | c' :: t' => if Ascii.eqb c c' then det_match p t' else det_match p t
    | [] => det_match p t
    end.
Proof. by destruct t. Qed.

Lemma det_match_group cls p t :
  det_match (Group cls :: p) t =
    match span cls t with
    | ([], _) => None
    | (run, rest) =>
        match det_match p rest with
        | Some (g, r) => Some (run :: g, r)
        | None => None
        end
    end.
Proof. done. Qed.

Lemma re_match_det p t :
  unambiguous p -> re_match p t = fst <$> det_match p t.
Proof.
  revert t. induction p as [|i p IH]; intros t Hp; [done|].
  destruct i as [c|c|cls|].
  - simpl in *. destruct t as [|c' t]; [done|]. destruct (Ascii.eqb c c'); auto.
  - destruct Hp as [Hnext Hp]. destruct p as [|[| |cls|] p]; try done.
    rewrite re_match_opt, det_match_opt.
    destruct t as [|c' t]; [by apply IH|].
    destruct (Ascii.eqb c c') eqn:Hcc; [|by apply IH].
    rewrite (IH t Hp). destruct (det_match _ t) as [[g r]|] eqn:Hd; [done|].
    apply Ascii.eqb_eq in Hcc as <-. simpl fmap at 1. cbv iota.
    rewrite (IH (c :: t) Hp), det_match_group. simpl span. by rewrite Hnext.
  - destruct Hp as [Hnext Hp]. destruct p as [|[c| | |] p]; try done.
    rewrite re_match_group, det_match_group, greedy_plus_span.
    + destruct (span cls t) as [[|x run] rest]; [done|].
      rewrite (IH rest Hp). simpl app.
      by destruct (det_match _ rest) as [[g r]|].
    + intros a c' t' Hc'. simpl.
      destruct (Ascii.eqb c c') eqn:Hcc; [|done].
      apply Ascii.eqb_eq in Hcc as <-. simpl in Hnext. congruence.
    + done.
  - simpl in *. destruct t as [|c' t]; [done|]. destruct (is_dot c'); auto.
Qed.

Lemma span_extend cls d x run c rest :
  span cls d = (run, c :: rest) ->
  span cls (d ++ x) = (run, c :: rest ++ x).
Proof.
  intros Hs. apply span_spec in Hs as (-> & Hall & Hc).
  rewrite <- (assoc_L (++)). simpl. by apply span_app.
Qed.

Lemma det_match_chr_head c p t gr :
  det_match (Chr c :: p) t = Some gr -> exists t', t = c :: t'.
Proof.
  destruct t as [|c' t]; simpl; [done|].
  destruct (Ascii.eqb c c') eqn:Hcc; [|done].
  apply Ascii.eqb_eq in Hcc as <-. eauto.
Qed.

(** What matched keeps matching, with the same groups, when text is added
    after it. *)
Lemma det_match_app p d x g r :
  unambiguous p ->
  det_match p d = Some (g, r) -> det_match p (d ++ x) = Some (g, r ++ x).
Proof.
  revert d g r. induction p as [|i p IH]; intros d g r Hp.
  - simpl. by intros [= <- <-].
  - destruct i as [c|c|cls|].
    + simpl in *. destruct d as [|c' d]; [done|]. simpl.
      destruct (Ascii.eqb c c'); [by apply IH | done].
    + destruct Hp as [Hnext Hp]. rewrite !det_match_opt.
      destruct d as [|c' d].
      * destruct p as [|[| |cls|] p]; try done.
      * cbn [app]. destruct (Ascii.eqb c c'); [by apply IH|].
        intros Hd. by apply (IH (c' :: d)).
    + destruct Hp as [Hnext Hp]. rewrite !det_match_group.
      destruct (span cls d) as [[|y run] rest] eqn:Hs; [done|].
      destruct (det_match p rest) as [[g' r']|] eqn:Hd; [|done].
      intros [= <- <-].
      destruct p as [|[c| | |] p]; try done.
      destruct (det_match_chr_head _ _ _ _ Hd) as [rest' ->].
      rewrite (span_extend _ _ x _ _ _ Hs).
      change (c :: rest' ++ x) with ((c :: rest') ++ x).
      by rewrite (IH _ _ _ Hp Hd).
    + simpl in *. destruct d as [|c' d]; [done|]. simpl.
      destruct (is_dot c'); [by apply IH | done].
Qed.

(** Two patterns that first differ in a literal character: a text matched
    by one is not the start of a text matched by the other. *)
Lemma det_match_diverge pre a b p q d x :
  a <> b ->
  unambiguous (pre ++ Chr a :: p) -> unambiguous (pre ++ Chr b :: q) ->
  is_Some (det_match (pre ++ Chr b :: q) d) ->
  det_match (pre ++ Chr a :: p) (d ++ x) = None.
Proof.
  intros Hab. revert d. induction pre as [|i pre IH]; intros d Ha Hb [gr Hd].
  - simpl in *. destruct (det_match_chr_head _ _ _ _ Hd) as [d' ->]. simpl.
    destruct (Ascii.eqb a b) eqn:Hcc; [|done].
    by apply Ascii.eqb_eq in Hcc.
  - destruct i as [c|c|cls|].
    + simpl in *. destruct d as [|c' d]; [done|]. simpl.
      destruct (Ascii.eqb c c'); [by apply IH; eauto | done].
    + destruct Ha as [Hna Ha], Hb as [Hnb Hb].
      simpl app in *. rewrite det_match_opt in *.
      destruct d as [|c' d].
      * destruct pre as [|[| |cls|] pre]; done.
      * cbn [app]. destruct (Ascii.eqb c c'); [by apply IH; eauto|].
        by apply (IH (c' :: d)); eauto.
    + destruct Ha as [Hna Ha], Hb as [Hnb Hb].
      simpl app in *. rewrite det_match_group in *.
      destruct (span cls d) as [[|y run] rest] eqn:Hs; [done|].
      destruct (det_match _ rest) as [[g' r']|] eqn:Hd'; [|done].
      assert (exists c rest', rest = c :: rest') as (c & rest' & ->).
      { destruct pre as [|[c| | |] pre]; try done;
          destruct (det_match_chr_head _ _ _ _ Hd') as [rest' ->]; eauto. }
      rewrite (span_extend _ _ x _ _ _ Hs).
      change (c :: rest' ++ x) with ((c :: rest') ++ x).
      by rewrite IH; eauto.
    + simpl in *. destruct d as [|c' d]; [done|]. simpl.
      destruct (is_dot c'); [by apply IH; eauto | done].
Qed.

Lemma det_match_group_run cls p run c rest :
  run <> [] -> Forall (fun x => cls x = true) run -> cls c = false ->
  det_match (Group cls :: p) (run ++ c :: rest) =
    match det_match p (c :: rest) with
    | Some (g, r) => Some (run :: g, r)
    | None => None
    end.
Proof.
  intros Hne Hall Hc. rewrite det_match_group, span_app by done.
  by destruct run.
Qed.

Lemma det_match_chr c p t : det_match (Chr c :: p) (c :: t) = det_match p t.
Proof. simpl. by rewrite Ascii.eqb_refl. Qed.

Lemma det_match_dot c p t :
  is_dot c = true -> det_match (Dot :: p) (c :: t) = det_match p t.
Proof. intros Hc. simpl. by rewrite Hc. Qed.

Lemma det_match_opt_take c p t :
  det_match (OptChr c :: p) (c :: t) = det_match p t.
Proof. simpl. by rewrite Ascii.eqb_refl. Qed.

Lemma det_match_opt_skip cls c p run rest :
  cls c = false -> run <> [] -> Forall (fun x => cls x = true) run ->
  det_match (OptChr c :: p) (run ++ rest) = det_match p (run ++ rest).
Proof.
  intros Hc Hne Hall. destruct run as [|y run]; [done|].
  apply Forall_cons in Hall as [Hy _]. rewrite det_match_opt. simpl.
  destruct (Ascii.eqb c y) eqn:Hcy; [|done].
  apply Ascii.eqb_eq in Hcy as <-. congruence.
Qed.

(** ** The three patterns *)

Lemma joined_re_split :
  joined_re = after_mention ++ Chr "j" :: lit "oined **" ++ [Group is_word] ++ lit "**" ++ [Dot].
Proof. reflexivity. Qed.

Lemma left_re_split :
  left_re = after_mention ++ Chr "l" :: lit "eft **" ++ [Group is_word] ++ lit "**" ++ [Dot].
Proof. reflexivity. Qed.

Lemma moved_re_split :
  moved_re = after_mention ++ Chr "m" :: lit "oved from **" ++ [Group is_word]
    ++ lit "** to **" ++ [Group is_word] ++ lit "**" ++ [Dot].
Proof. reflexivity. Qed.

Lemma joined_re_unambiguous : unambiguous joined_re.
Proof. cbv [joined_re mention lit txt list_ascii_of_string map app unambiguous]. repeat split; reflexivity. Qed.

Lemma left_re_unambiguous : unambiguous left_re.
Proof. cbv [left_re mention lit txt list_ascii_of_string map app unambiguous]. repeat split; reflexivity. Qed.

Lemma moved_re_unambiguous : unambiguous moved_re.
Proof. cbv [moved_re mention lit txt list_ascii_of_string map app unambiguous]. repeat split; reflexivity. Qed.

Ltac match_text :=
  repeat first
    [ rewrite det_match_chr
    | rewrite det_match_dot by done
    | rewrite det_match_group_run by done ].

Lemma det_match_mention nick uid p rest :
  digits uid ->
  det_match (mention ++ Chr ">" :: p) (mention_text nick uid ++ rest) =
    match det_match p rest with
    | Some (g, r) => Some (uid :: g, r)
    | None => None
    end.
Proof.
  intros [Hu1 Hu2]. unfold mention_text, mention, lit.
  rewrite <- !(assoc_L (++)).
  cbn [txt list_ascii_of_string map app]. rewrite !det_match_chr.
  destruct nick; cbn [app].
  - rewrite det_match_opt_take. by match_text.
  - rewrite (det_match_opt_skip is_digit) by done. by match_text.
Qed.

Lemma det_match_joined_text nick uid chan c x :
  digits uid -> word chan -> is_dot c = true ->
  det_match joined_re (joined_text nick uid chan c ++ x) = Some ([uid; chan], x).
Proof.
  intros Hu [Ha1 Ha2] Hc. unfold joined_text, joined_re.
  rewrite <- !(assoc_L (++)).
  cbn [lit txt list_ascii_of_string map app].
  rewrite det_match_mention by done. by match_text.
Qed.

Lemma det_match_left_text nick uid chan c x :
  digits uid -> word chan -> is_dot c = true ->
  det_match left_re (left_text nick uid chan c ++ x) = Some ([uid; chan], x).
Proof.
  intros Hu [Ha1 Ha2] Hc. unfold left_text, left_re.
  rewrite <- !(assoc_L (++)).
  cbn [lit txt list_ascii_of_string map app].
  rewrite det_match_mention by done. by match_text.
Qed.

Lemma det_match_moved_text nick uid a b c x :
  digits uid -> word a -> word b -> is_dot c = true ->
  det_match moved_re (moved_text nick uid a b c ++ x) = Some ([uid; a; b], x).
Proof.
  intros Hu [Ha1 Ha2] [Hb1 Hb2] Hc. unfold moved_text, moved_re.
  rewrite <- !(assoc_L (++)).
  cbn [lit txt list_ascii_of_string map app].
  rewrite det_match_mention by done. by match_text.
Qed.

(** ** The classifier on record texts *)

Lemma re_match_app p d x g :
  unambiguous p -> re_match p d = Some g -> re_match p (d ++ x) = Some g.
Proof.
  intros Hp. rewrite !re_match_det by done.
  destruct (det_match p d) as [[g' r]|] eqn:Hd; [|done].
  intros [= <-]. by rewrite (det_match_app _ _ x _ _ Hp Hd).
Qed.

Lemma re_match_diverge pre a b p q d x :
  a <> b ->
  unambiguous (pre ++ Chr a :: p) -> unambiguous (pre ++ Chr b :: q) ->
  is_Some (re_match (pre ++ Chr b :: q) d) ->
  re_match (pre ++ Chr a :: p) (d ++ x) = None.
Proof.
  intros Hab Ha Hb. rewrite !re_match_det by done. intros [g Hg].
  rewrite (det_match_diverge pre a b p q d x); [done..|].
  destruct (det_match _ d); [by eexists | done].
Qed.

Lemma joined_not_left d x :
  is_Some (re_match left_re d) -> re_match joined_re (d ++ x) = None.
Proof.
  rewrite joined_re_split, left_re_split.
  apply re_match_diverge; [done | | ].
  - rewrite <- joined_re_split. apply joined_re_unambiguous.
  - rewrite <- left_re_split. apply left_re_unambiguous.
Qed.

Lemma joined_not_moved d x :
  is_Some (re_match moved_re d) -> re_match joined_re (d ++ x) = None.
Proof.
  rewrite joined_re_split, moved_re_split.
  apply re_match_diverge; [done | | ].
  - rewrite <- joined_re_split. apply joined_re_unambiguous.
  - rewrite <- moved_re_split. apply moved_re_unambiguous.
Qed.

Lemma left_not_moved d x :
  is_Some (re_match moved_re d) -> re_match left_re (d ++ x) = None.
Proof.
  rewrite left_re_split, moved_re_split.
  apply re_match_diverge; [done | | ].
  - rewrite <- left_re_split. apply left_re_unambiguous.
  - rewrite <- moved_re_split. apply moved_re_unambiguous.
Qed.

Lemma match_record_app d x target r :
  match_record d target = Some r -> match_record (d ++ x) target = Some r.
Proof.
  unfold match_record.
  destruct (re_match joined_re d) as [g|] eqn:Hj.
  { by rewrite (re_match_app _ _ x _ joined_re_unambiguous Hj). }
  destruct (re_match left_re d) as [g|] eqn:Hl.
  { rewrite (joined_not_left d x) by (rewrite Hl; eauto).
    by rewrite (re_match_app _ _ x _ left_re_unambiguous Hl). }
  destruct (re_match moved_re d) as [g|] eqn:Hm; [|done].
  rewrite (joined_not_moved d x), (left_not_moved d x) by (rewrite Hm; eauto).
  by rewrite (re_match_app _ _ x _ moved_re_unambiguous Hm).
Qed.

Lemma match_record_joined nick uid chan c x target :
  digits uid -> word chan -> is_dot c = true ->
  match_record (joined_text nick uid chan c ++ x) target = Some (uid, chan, join).
Proof.
  intros Hu Hc Hd. unfold match_record.
  rewrite (re_match_det joined_re) by apply joined_re_unambiguous.
  by rewrite det_match_joined_text.
Qed.

Lemma match_record_left nick uid chan c x target :
  digits uid -> word chan -> is_dot c = true ->
  match_record (left_text nick uid chan c ++ x) target = Some (uid, chan, leave).
Proof.
  intros Hu Hc Hd. unfold match_record.
  assert (re_match left_re (left_text nick uid chan c) = Some [uid; chan]) as Hl.
  { rewrite (re_match_det left_re) by apply left_re_unambiguous.
    rewrite <- (right_id_L [] (++) (left_text _ _ _ _)).
    by rewrite det_match_left_text. }
  rewrite (joined_not_left _ x) by (rewrite Hl; eauto).
  by rewrite (re_match_app _ _ x _ left_re_unambiguous Hl).
Qed.

Lemma match_record_moved nick uid a b c x target :
  digits uid -> word a -> word b -> is_dot c = true ->
  match_record (moved_text nick uid a b c ++ x) target =
    if str_eqb b target then Some (uid, b, join)
    else if str_eqb a target then Some (uid, b, leave)
    else None.
Proof.
  intros Hu Ha Hb Hd. unfold match_record.
  assert (re_match moved_re (moved_text nick uid a b c) = Some [uid; a; b]) as Hm.
  { rewrite (re_match_det moved_re) by apply moved_re_unambiguous.
    rewrite <- (right_id_L [] (++) (moved_text _ _ _ _ _)).
    by rewrite det_match_moved_text. }
  rewrite (joined_not_moved _ x), (left_not_moved _ x) by (rewrite Hm; eauto).
  by rewrite (re_match_app _ _ x _ moved_re_unambiguous Hm).
Qed.

Lemma str_eqb_refl a : str_eqb a a = true.
Proof. unfold str_eqb. by rewrite bool_decide_eq_true. Qed.

Lemma str_eqb_ne a b : a <> b -> str_eqb a b = false.
Proof. intros H. unfold str_eqb. by rewrite bool_decide_eq_false. Qed.

Lemma from_embed_app d x ts target e :
  from_embed (mkEmbed (Some d) ts) target = Some e ->
  from_embed (mkEmbed (Some (d ++ x)) ts) target = Some e.
Proof.
  unfold from_embed. cbn [description timestamp].
  destruct (match_record d target) as [r|] eqn:Hr; [|done].
  by rewrite (match_record_app _ x _ _ Hr).
Qed.

Lemma from_embed_joined nick uid chan c x ts :
  digits uid -> word chan -> is_dot c = true ->
  from_embed (mkEmbed (Some (joined_text nick uid chan c ++ x)) (Some ts)) chan
  = Some (mkStalkEvent (int uid) ts join).
Proof.
  intros Hu Hc Hd. unfold from_embed. cbn [description timestamp].
  rewrite match_record_joined by done. by rewrite str_eqb_refl.
Qed.

Lemma from_embed_left nick uid chan c x ts :
  digits uid -> word chan -> is_dot c = true ->
  from_embed (mkEmbed (Some (left_text nick uid chan c ++ x)) (Some ts)) chan
  = Some (mkStalkEvent (int uid) ts leave).
Proof.
  intros Hu Hc Hd. unfold from_embed. cbn [description timestamp].
  rewrite match_record_left by done. by rewrite str_eqb_refl.
Qed.

(** A move record is an event only when its destination is the target
    channel: line 62 hands the destination to the comparison of line 68
    also when the origin is the target channel. *)
Lemma from_embed_moved nick uid a b c x ts target :
  digits uid -> word a -> word b -> is_dot c = true ->
  from_embed (mkEmbed (Some (moved_text nick uid a b c ++ x)) (Some ts)) target
  = if str_eqb b target then Some (mkStalkEvent (int uid) ts join) else None.
Proof.
  intros Hu Ha Hb Hd. unfold from_embed. cbn [description timestamp].
  rewrite match_record_moved by done.
  destruct (str_eqb b target) eqn:Hbt; [by rewrite Hbt|].
  destruct (str_eqb a target); [by rewrite Hbt | done].
Qed.

Lemma is_dot_period : is_dot "." = true.
Proof. reflexivity. Qed.

Lemma digits_1 : digits (txt "1").
Proof. split; [done | by repeat constructor]. Qed.

Lemma word_vc : word (txt "vc").
Proof. split; [done | by repeat constructor]. Qed.

Lemma word_other : word (txt "other").
Proof. split; [done | by repeat constructor]. Qed.

(** C1. A move record into the target channel is classified as a join.  A
    move record out of the target channel, to another channel, is not
    classified as a leave: the classifier returns no event. *)
Theorem moved_record_classification nick uid a b ts target :
  digits uid -> word a -> word b ->
  (b = target ->
   from_embed (mkEmbed (Some (moved_text nick uid a b ".")) (Some ts)) target
   = Some (mkStalkEvent (int uid) ts join))
  /\ (a = target -> b <> target ->
      from_embed (mkEmbed (Some (moved_text nick uid a b ".")) (Some ts)) target
      = None).
Proof.
  intros Hu Ha Hb.
  pose proof (from_embed_moved nick uid a b "." [] ts target Hu Ha Hb is_dot_period) as H.
  rewrite (right_id_L [] (++)) in H. unfold str in *. split.
  - intros Hbt. rewrite H, Hbt. by rewrite str_eqb_refl.
  - intros _ Hne. rewrite H. by rewrite str_eqb_ne.
Qed.

Lemma moved_record_classification_witness :
  from_embed (mkEmbed (Some (txt "<@1> moved from **vc** to **other**.")) (Some 0))
    (txt "vc") = None.
Proof.
  apply (moved_record_classification false (txt "1") (txt "vc") (txt "other") 0 (txt "vc")
           digits_1 word_vc word_other); [reflexivity | discriminate].
Defined.

(** C10. A move record whose origin and destination are both the target
    channel is classified as a join. *)
Theorem moved_within_target_is_join nick uid ts target :
  digits uid -> word target ->
  from_embed (mkEmbed (Some (moved_text nick uid target target ".")) (Some ts)) target
  = Some (mkStalkEvent (int uid) ts join).
Proof.
  intros Hu Ht.
  pose proof (from_embed_moved nick uid target target "." [] ts target Hu Ht Ht is_dot_period) as H.
  rewrite (right_id_L [] (++)) in H. unfold str in *. by rewrite H, str_eqb_refl.
Qed.

Lemma moved_within_target_is_join_witness :
  from_embed (mkEmbed (Some (txt "<@1> moved from **vc** to **vc**.")) (Some 0))
    (txt "vc") = Some (mkStalkEvent 1 0 join).
Proof.
  apply (moved_within_target_is_join false (txt "1") 0 (txt "vc") digits_1 word_vc).
Defined.

(** C9, as the code has it.  The patterns are anchored at the start of the
    text only: a text that is classified keeps its event when anything is
    written after it.  The last [.] of a pattern takes any character but a
    line feed. *)
Theorem trailing_text_and_last_character nick uid chan other c x ts :
  digits uid -> word chan -> word other -> is_dot c = true ->
  (forall d y ots target e,
     from_embed (mkEmbed (Some d) ots) target = Some e ->
     from_embed (mkEmbed (Some (d ++ y)) ots) target = Some e)
  /\ from_embed (mkEmbed (Some (joined_text nick uid chan c ++ x)) (Some ts)) chan
     = Some (mkStalkEvent (int uid) ts join)
  /\ from_embed (mkEmbed (Some (left_text nick uid chan c ++ x)) (Some ts)) chan
     = Some (mkStalkEvent (int uid) ts leave)
  /\ from_embed (mkEmbed (Some (moved_text nick uid other chan c ++ x)) (Some ts)) chan
     = Some (mkStalkEvent (int uid) ts join)
  /\ from_embed (mkEmbed (Some (txt "<@1> joined **vc**X garbage")) (Some ts)) (txt "vc")
     = Some (mkStalkEvent 1 ts join).
Proof.
  intros Hu Hc Ho Hd. split; [|split; [|split; [|split]]].
  - intros d y ots target e. apply from_embed_app.
  - by apply from_embed_joined.
  - by apply from_embed_left.
  - rewrite from_embed_moved by done. by rewrite str_eqb_refl.
  - reflexivity.
Qed.

Lemma trailing_text_and_last_character_witness :
  from_embed (mkEmbed (Some (txt "<@1> left **vc**! and more")) (Some 7)) (txt "vc")
  = Some (mkStalkEvent 1 7 leave).
Proof.
  apply (trailing_text_and_last_character false (txt "1") (txt "vc") (txt "other")
           "!" (txt " and more") 7 digits_1 word_vc word_other eq_refl).
Defined.

(** C9, as stated, fails when the last character is a line feed. *)
Lemma last_character_line_feed :
  from_embed (mkEmbed (Some (txt "<@1> joined **vc**" ++ ["010"%char])) (Some 0))
    (txt "vc") = None.
Proof. reflexivity. Qed.

(** * The reconstructor on short sequences *)

(** C4. A join alone is closed at the end of the window when it is at most
    twelve hours old there, and dropped when it is older. *)
Theorem join_alone u t1 start_time end_time :
  (end_time - t1 <= hours 12 ->
   process_events [Join u t1] start_time end_time = [Interval u t1 end_time])
  /\ (hours 12 < end_time - t1 ->
      process_events [Join u t1] start_time end_time = []).
Proof.
  unfold process_events, scan_events, hours, seconds, Interval. simpl.
  split; intros H.
  - rewrite bool_decide_eq_false_2; [done | lia].
  - rewrite bool_decide_eq_true_2; [done | lia].
Qed.

Lemma join_alone_witness :
  process_events [Join 7 1000] 0 (1000 + hours 12) = [Interval 7 1000 (1000 + hours 12)]
  /\ process_events [Join 7 1000] 0 (1001 + hours 12) = [].
Proof.
  split.
  - apply (join_alone 7 1000 0 (1000 + hours 12)). vm_compute. discriminate.
  - apply (join_alone 7 1000 0 (1001 + hours 12)). reflexivity.
Defined.

Lemma scan_events_snoc start_time evts evt :
  scan_events start_time (evts ++ [evt])
  = scan_step start_time (scan_events start_time evts) evt.
Proof. unfold scan_events. by rewrite fold_left_app. Qed.

Lemma seen_scan_step start_time st evt :
  seen (scan_step start_time st evt) = {[ who evt ]} ∪ seen st.
Proof.
  unfold scan_step. destruct (action evt); simpl; [done|].
  destruct (dict_get _ _); simpl; [done|]. by case_bool_decide.
Qed.

Lemma seen_fold start_time evts st :
  seen (fold_left (scan_step start_time) evts st)
  = list_to_set (who <$> evts) ∪ seen st.
Proof.
  revert st. induction evts as [|e evts IH]; intros st.
  - symmetry. apply (left_id_L ∅ (∪)).
  - cbn [fold_left]. rewrite IH, seen_scan_step, fmap_cons. cbn [list_to_set].
    rewrite !(assoc_L (∪)). f_equal. apply (comm_L (∪)).
Qed.

Lemma seen_scan_events start_time evts :
  seen (scan_events start_time evts) = list_to_set (who <$> evts).
Proof. unfold scan_events. rewrite seen_fold. apply (right_id_L ∅ (∪)). Qed.

(** C5. A leave alone closes an interval opened at the start of the window.
    A leave of a user who was seen before in the pass and has no open join
    adds no interval, now or at the end of the pass. *)
Theorem leave_without_open_join u t1 start_time end_time :
  process_events [Leave u t1] start_time end_time = [Interval u start_time t1]
  /\ (forall pre,
        u ∈ (who <$> pre) ->
        dict_get u (looking_at (scan_events start_time pre)) = None ->
        durations (scan_events start_time (pre ++ [Leave u t1]))
        = durations (scan_events start_time pre)
        /\ process_events (pre ++ [Leave u t1]) start_time end_time
           = process_events pre start_time end_time).
Proof.
  split.
  - unfold process_events, scan_events, Leave, Interval. simpl.
    rewrite bool_decide_eq_true_2; [done | apply not_elem_of_empty].
  - intros pre Hseen Hopen. unfold process_events.
    rewrite scan_events_snoc. unfold scan_step. simpl. rewrite Hopen.
    rewrite bool_decide_eq_false_2; [done|].
    rewrite seen_scan_events. intros Hnot. apply Hnot.
    by apply elem_of_list_to_set.
Qed.

Lemma leave_without_open_join_witness :
  process_events [Join 1 10; Leave 1 20; Leave 1 30] 0 40
  = process_events [Join 1 10; Leave 1 20] 0 40.
Proof.
  apply (proj2 (leave_without_open_join 1 30 0 40) [Join 1 10; Leave 1 20]).
  - apply list_elem_of_here.
  - reflexivity.
Defined.

(** C7. A join followed by a later leave of the same user gives the one
    interval between them. *)
Theorem join_then_leave u t1 t2 start_time end_time :
  t1 < t2 ->
  process_events [Join u t1; Leave u t2] start_time end_time = [Interval u t1 t2].
Proof.
  intros _. unfold process_events, scan_events, Join, Leave, Interval. simpl.
  by rewrite bool_decide_eq_true_2.
Qed.

Lemma join_then_leave_witness :
  process_events [Join 3 100; Leave 3 250] 0 1000 = [Interval 3 100 250].
Proof. apply (join_then_leave 3 100 250 0 1000). lia. Defined.

(** C6, as the code has it.  After two joins of one user only the second
    is open; the pass returns at most the interval from the second join to
    the end of the window, and no interval starts at the first join unless
    both joins carry the same time. *)
Theorem second_join_replaces_first u t1 t2 start_time end_time :
  looking_at (scan_events start_time [Join u t1; Join u t2]) = [(u, t2)]
  /\ durations (scan_events start_time [Join u t1; Join u t2]) = []
  /\ process_events [Join u t1; Join u t2] start_time end_time
     = (if bool_decide (hours 12 < end_time - t2) then []
        else [Interval u t2 end_time])
  /\ (t1 <> t2 ->
      forall d, d ∈ process_events [Join u t1; Join u t2] start_time end_time ->
                joined d <> t1).
Proof.
  assert (process_events [Join u t1; Join u t2] start_time end_time
          = (if bool_decide (hours 12 < end_time - t2) then []
             else [Interval u t2 end_time])) as Hp.
  { unfold process_events, scan_events, Join, Interval, hours. simpl.
    by rewrite bool_decide_eq_true_2. }
  split; [|split; [|split]].
  - unfold scan_events, Join. simpl. by rewrite bool_decide_eq_true_2.
  - reflexivity.
  - done.
  - intros Hne d. rewrite Hp.
    case_bool_decide; [intros Hd; by apply elem_of_nil in Hd|].
    intros ->%list_elem_of_singleton. simpl. congruence.
Qed.

Lemma second_join_replaces_first_witness :
  Forall (fun d => joined d <> 10) (process_events [Join 1 10; Join 1 20] 0 30).
Proof.
  apply Forall_forall.
  apply (proj2 (proj2 (proj2 (second_join_replaces_first 1 10 20 0 30)))).
  discriminate.
Defined.

(** C6, as stated, fails when the two joins carry the same time: the
    interval of the second join starts at the time of the first. *)
Lemma equal_join_times_counterexample :
  process_events [Join 1 10; Join 1 10] 0 30 = [Interval 1 10 30]
  /\ joined (Interval 1 10 30) = 10.
Proof. split; reflexivity. Qed.

(** * The duration filter *)

Lemma keep_long_filter ds : keep_long ds = filter long_enough ds.
Proof.
  induction ds as [|d ds IH]; [done|]. cbn [keep_long].
  rewrite IH, filter_cons.
  change (seconds 600 < left d - joined d) with (long_enough d).
  destruct (decide (long_enough d)).
  - by rewrite bool_decide_eq_true_2.
  - by rewrite bool_decide_eq_false_2.
Qed.

(** C8. The filter returns, in the order of its input, the intervals that
    last strictly more than 600 seconds, and only those. *)
Theorem keep_long_spec ds :
  keep_long ds = filter long_enough ds
  /\ sublist (keep_long ds) ds
  /\ (forall d, d ∈ keep_long ds <-> d ∈ ds /\ seconds 600 < left d - joined d)
  /\ (forall u t, keep_long [Interval u t (t + seconds 600)] = [])
  /\ (forall u t, keep_long [Interval u t (t + seconds 601)]
                  = [Interval u t (t + seconds 601)]).
Proof.
  split; [apply keep_long_filter|]. rewrite keep_long_filter.
  split; [apply sublist_filter|].
  split; [|split].
  - intros d. rewrite list_elem_of_filter. unfold long_enough. tauto.
  - intros u t. cbn [keep_long]. rewrite bool_decide_eq_false_2; [done|].
    unfold seconds. simpl. lia.
  - intros u t. cbn [keep_long]. rewrite bool_decide_eq_true_2; [done|].
    unfold seconds. simpl. lia.
Qed.

(** * The open-join dictionary *)

Lemma dict_get_map k d : dict_get k d = dict_map d !! k.
Proof.
  unfold dict_map. induction d as [|[k' v] d IH]; simpl; [done|].
  case_bool_decide as Hk.
  - subst. by rewrite lookup_insert_eq.
  - by rewrite lookup_insert_ne.
Qed.

Lemma dict_get_None k d : dict_get k d = None <-> k ∉ d.*1.
Proof. rewrite dict_get_map. symmetry. apply not_elem_of_list_to_map. Qed.

Lemma dict_get_elem k v d : dict_get k d = Some v -> (k, v) ∈ d.
Proof. rewrite dict_get_map. apply elem_of_list_to_map_2. Qed.

Lemma dict_set_elem k v d p :
  p ∈ dict_set k v d -> p = (k, v) \/ p ∈ d.
Proof.
  induction d as [|[k' v'] d IH]; simpl.
  - intros ->%list_elem_of_singleton. by left.
  - case_bool_decide as Hk.
    + intros [->|Hp]%elem_of_cons; [subst; by left|].
      right. by apply elem_of_cons; right.
    + intros [->|Hp]%elem_of_cons; [right; by apply elem_of_cons; left|].
      destruct (IH Hp) as [->|Hd]; [by left|].
      right. by apply elem_of_cons; right.
Qed.

Lemma dict_set_keys k v d :
  (dict_set k v d).*1 = if decide (k ∈ d.*1) then d.*1 else d.*1 ++ [k].
Proof.
  induction d as [|[k' v'] d IH].
  - rewrite decide_False; [done | apply not_elem_of_nil].
  - cbn [dict_set]. case_bool_decide as Hk.
    + subst. rewrite decide_True; [done | apply list_elem_of_here].
    + rewrite !fmap_cons, IH. cbn [fst].
      destruct (decide (k ∈ d.*1)) as [Hin|Hin].
      * rewrite decide_True; [done | by apply list_elem_of_further].
      * rewrite decide_False; [done|].
        intros [?|?]%elem_of_cons; congruence.
Qed.

Lemma dict_set_NoDup k v d : NoDup d.*1 -> NoDup (dict_set k v d).*1.
Proof.
  intros Hd. rewrite dict_set_keys. case_decide as Hk; [done|].
  apply NoDup_app. split; [done|]. split; [|apply NoDup_singleton].
  intros x Hx ->%list_elem_of_singleton. done.
Qed.

Lemma dict_set_map k v d : dict_map (dict_set k v d) = <[k:=v]> (dict_map d).
Proof.
  unfold dict_map. induction d as [|[k' v'] d IH]; simpl; [done|].
  case_bool_decide as Hk; simpl.
  - subst. by rewrite insert_insert_eq.
  - rewrite IH. by apply insert_insert_ne.
Qed.

Lemma dict_del_elem k d p : p ∈ dict_del k d -> p ∈ d.
Proof.
  induction d as [|[k' v'] d IH]; simpl; [done|].
  case_bool_decide as Hk.
  - intros Hp. by apply list_elem_of_further.
  - intros [->|Hp]%elem_of_cons; [apply list_elem_of_here|].
    apply list_elem_of_further. auto.
Qed.

Lemma dict_del_keys_elem k d x : x ∈ (dict_del k d).*1 -> x ∈ d.*1.
Proof.
  intros ([k' v'] & -> & Hp%dict_del_elem)%list_elem_of_fmap.
  apply list_elem_of_fmap. by exists (k', v').
Qed.

Lemma dict_del_NoDup k d : NoDup d.*1 -> NoDup (dict_del k d).*1.
Proof.
  induction d as [|[k' v'] d IH]; simpl; [done|].
  intros [Hk' Hd]%NoDup_cons. case_bool_decide as Hk; [done|].
  simpl. apply NoDup_cons. split; [|auto].
  intros Hin%dict_del_keys_elem. done.
Qed.

Lemma dict_del_map k d :
  NoDup d.*1 -> dict_map (dict_del k d) = delete k (dict_map d).
Proof.
  unfold dict_map. induction d as [|[k' v'] d IH]; simpl.
  - intros _. by rewrite delete_empty.
  - intros [Hk' Hd]%NoDup_cons. case_bool_decide as Hk; simpl.
    + subst. rewrite delete_insert_eq. symmetry. apply delete_id.
      by apply not_elem_of_list_to_map_1.
    + rewrite IH by done. by rewrite delete_insert_ne.
Qed.

Lemma dict_del_absent k d : NoDup d.*1 -> k ∉ (dict_del k d).*1.
Proof.
  intros Hd. apply dict_get_None.
  rewrite dict_get_map, dict_del_map by done. apply lookup_delete_eq.
Qed.

Lemma dict_del_id k d : dict_get k d = None -> dict_del k d = d.
Proof.
  induction d as [|[k' v'] d IH]; simpl; [done|].
  case_bool_decide as Hk; [done|]. intros Hg. by rewrite IH.
Qed.

(** * One turn of the scan, by its three effects *)

Lemma scan_step_effects start_time st evt :
  scan_step start_time st evt
  = mkScan (dict_op evt (looking_at st))
           (durations st ++ emitted start_time st evt)
           ({[ who evt ]} ∪ seen st).
Proof.
  unfold scan_step, dict_op, emitted, emit. destruct (action evt); simpl.
  - by rewrite (right_id_L [] (++)).
  - destruct (dict_get (who evt) (looking_at st)) as [j|] eqn:Hg; simpl; [done|].
    rewrite (dict_del_id _ _ Hg).
    destruct (decide (who evt ∈ seen st)) as [Hs|Hs].
    + rewrite bool_decide_eq_false_2, bool_decide_eq_true_2 by auto.
      by rewrite (right_id_L [] (++)).
    + by rewrite bool_decide_eq_true_2, bool_decide_eq_false_2 by auto.
Qed.

Lemma close_open_omap end_time items ds :
  close_open end_time items ds = ds ++ omap (close_item end_time) items.
Proof.
  revert ds. induction items as [|[u j] items IH]; intros ds; simpl.
  - by rewrite (right_id_L [] (++)).
  - unfold close_item at 1. simpl. case_bool_decide; rewrite IH; [done|].
    by rewrite <- (assoc_L (++)).
Qed.

Lemma dict_op_NoDup evt d : NoDup d.*1 -> NoDup (dict_op evt d).*1.
Proof.
  unfold dict_op. destruct (action evt);
    [apply dict_set_NoDup | apply dict_del_NoDup].
Qed.

Lemma dict_op_map evt d :
  NoDup d.*1 -> dict_map (dict_op evt d) = map_op evt (dict_map d).
Proof.
  unfold dict_op, map_op. destruct (action evt); intros Hd.
  - apply dict_set_map.
  - by apply dict_del_map.
Qed.

Lemma map_op_lookup_ne evt m k :
  who evt <> k -> map_op evt m !! k = m !! k.
Proof.
  unfold map_op. destruct (action evt); intros Hk.
  - by rewrite lookup_insert_ne.
  - by rewrite lookup_delete_ne.
Qed.

Lemma map_op_comm e1 e2 m :
  who e1 <> who e2 -> map_op e2 (map_op e1 m) = map_op e1 (map_op e2 m).
Proof.
  intros Hne. apply map_eq. intros k. unfold map_op.
  destruct (action e1), (action e2);
    repeat (rewrite lookup_insert || rewrite lookup_delete);
    repeat case_decide; congruence.
Qed.

Lemma scan_fold_NoDup start_time evts st :
  NoDup (looking_at st).*1 ->
  NoDup (looking_at (fold_left (scan_step start_time) evts st)).*1.
Proof.
  revert st. induction evts as [|e evts IH]; intros st Hst; [done|]. simpl.
  apply IH. rewrite scan_step_effects. simpl. by apply dict_op_NoDup.
Qed.

(** * Order of events of different users *)

Lemma scan_step_equiv start_time st1 st2 evt :
  scan_equiv st1 st2 ->
  scan_equiv (scan_step start_time st1 evt) (scan_step start_time st2 evt).
Proof.
  intros (Hm & Hn1 & Hn2 & Hd & Hs). rewrite !scan_step_effects.
  unfold scan_equiv, emitted. simpl.
  rewrite !dict_op_map, !dict_get_map, Hm, Hs by done.
  repeat split; [by apply dict_op_NoDup.. |].
  by rewrite Hd.
Qed.

Lemma scan_fold_equiv start_time evts st1 st2 :
  scan_equiv st1 st2 ->
  scan_equiv (fold_left (scan_step start_time) evts st1)
             (fold_left (scan_step start_time) evts st2).
Proof.
  revert st1 st2. induction evts as [|e evts IH]; intros st1 st2 H; [done|].
  simpl. by apply IH, scan_step_equiv.
Qed.

Lemma scan_step_swap start_time st e1 e2 :
  NoDup (looking_at st).*1 -> who e1 <> who e2 ->
  scan_equiv (scan_step start_time (scan_step start_time st e1) e2)
             (scan_step start_time (scan_step start_time st e2) e1).
Proof.
  intros Hn Hne. rewrite !scan_step_effects. unfold scan_equiv, emitted. simpl.
  rewrite !dict_op_map, !dict_get_map by auto using dict_op_NoDup.
  rewrite !dict_op_map by done.
  rewrite !map_op_lookup_ne by done.
  assert (forall (k k' : Z) (X : gset Z), k' <> k ->
            bool_decide (k ∈ ({[ k' ]} ∪ X : gset Z)) = bool_decide (k ∈ X)) as Hin.
  { intros k k' X Hk. apply bool_decide_ext.
    rewrite elem_of_union, elem_of_singleton. split; [|by right].
    intros [Heq|HX]; [congruence | done]. }
  rewrite !Hin by done.
  split; [by apply map_op_comm|].
  split; [auto using dict_op_NoDup|].
  split; [auto using dict_op_NoDup|].
  split.
  - rewrite <- !(assoc_L (++)). apply Permutation_app_head, Permutation_app_comm.
  - rewrite !(assoc_L (∪)). f_equal. apply (comm_L (∪)).
Qed.

Lemma close_open_equiv end_time st1 st2 :
  scan_equiv st1 st2 ->
  close_open end_time (looking_at st1) (durations st1)
  ≡ₚ close_open end_time (looking_at st2) (durations st2).
Proof.
  intros (Hm & Hn1 & Hn2 & Hd & Hs). rewrite !close_open_omap.
  assert (looking_at st1 ≡ₚ looking_at st2) as Hl
    by (by apply (list_to_map_inj (M := gmap Z))).
  by rewrite Hd, Hl.
Qed.

(** C3. Exchanging two adjacent events of different users leaves the same
    intervals, each as many times as before. *)
Theorem swap_events_of_distinct_users pre e1 e2 post start_time end_time :
  who e1 <> who e2 ->
  process_events (pre ++ e1 :: e2 :: post) start_time end_time
  ≡ₚ process_events (pre ++ e2 :: e1 :: post) start_time end_time.
Proof.
  intros Hne. unfold process_events, scan_events.
  apply close_open_equiv. rewrite !fold_left_app. simpl.
  apply scan_fold_equiv, scan_step_swap; [|done].
  by apply scan_fold_NoDup, NoDup_nil.
Qed.

Lemma swap_events_of_distinct_users_witness :
  process_events ([Join 1 10] ++ Leave 2 20 :: Join 3 30 :: [Leave 1 40]) 0 50
  ≡ₚ process_events ([Join 1 10] ++ Join 3 30 :: Leave 2 20 :: [Leave 1 40]) 0 50.
Proof.
  apply (swap_events_of_distinct_users [Join 1 10] (Leave 2 20) (Join 3 30)
           [Leave 1 40] 0 50).
  discriminate.
Defined.

(** * Intervals of one user *)

Lemma ForallOrdPairs_app {A} (R : A -> A -> Prop) l1 l2 :
  ForallOrdPairs R l1 -> ForallOrdPairs R l2 ->
  (forall a b, a ∈ l1 -> b ∈ l2 -> R a b) ->
  ForallOrdPairs R (l1 ++ l2).
Proof.
  intros H1 H2 H12. induction H1 as [|a l1 Ha H1 IH]; simpl; [done|].
  constructor.
  - apply Forall_app. split; [done|].
    apply Forall_forall. intros b Hb. apply H12; [apply list_elem_of_here | done].
  - apply IH. intros x y Hx Hy. apply H12; [by apply list_elem_of_further | done].
Qed.

Lemma ForallOrdPairs_lookup {A} (R : A -> A -> Prop) l i j a b :
  ForallOrdPairs R l -> (i < j)%nat ->
  l !! i = Some a -> l !! j = Some b -> R a b.
Proof.
  intros H. revert i j. induction H as [|x l Hx H IH]; intros i j Hij Hi Hj.
  - done.
  - destruct j as [|j]; [lia|]. destruct i as [|i]; simpl in *.
    + injection Hi as ->. rewrite Forall_forall in Hx.
      apply Hx. by eapply list_elem_of_lookup_2.
    + apply (IH i j); [lia | done..].
Qed.

Lemma ForallOrdPairs_snoc {A} (R : A -> A -> Prop) l b :
  ForallOrdPairs R l -> (forall a, a ∈ l -> R a b) ->
  ForallOrdPairs R (l ++ [b]).
Proof.
  intros Hl Hb. apply ForallOrdPairs_app; [done | repeat constructor |].
  intros a b' Ha ->%list_elem_of_singleton. auto.
Qed.

Lemma scan_inv_init end_time now : scan_inv end_time now scan_init.
Proof.
  unfold scan_inv, scan_init. simpl.
  split; [apply NoDup_nil_2|].
  split; [intros u j H; by apply elem_of_nil in H|].
  split; [intros u j d H; by apply elem_of_nil in H|].
  split; [intros d H; by apply elem_of_nil in H | constructor].
Qed.

Lemma scan_inv_step start_time end_time now st evt :
  scan_inv end_time now st ->
  now <= when evt -> in_window start_time end_time evt ->
  scan_inv end_time (when evt) (scan_step start_time st evt).
Proof.
  intros (Hn & Hopen & Hclosed & Hds & Hord) Hnow [Hlo Hhi].
  rewrite scan_step_effects. unfold scan_inv, dict_op, emitted, emit. simpl.
  destruct (action evt).
  - (* join *)
    rewrite (right_id_L [] (++)).
    split; [by apply dict_set_NoDup|].
    split; [|split; [|split; [|done]]].
    + intros u j [[= -> ->]|Hin]%dict_set_elem; [lia|].
      destruct (Hopen _ _ Hin). lia.
    + intros u j d [[= -> ->]|Hin]%dict_set_elem Hd Hu.
      * destruct (Hds _ Hd) as (_ & ? & _). lia.
      * eauto.
    + intros d Hd. destruct (Hds _ Hd) as (? & ? & ?).
      split; [done|]. split; [lia|]. apply elem_of_union. by right.
  - (* leave *)
    destruct (dict_get (who evt) (looking_at st)) as [j|] eqn:Hg.
    + (* an open join *)
      pose proof (dict_get_elem _ _ _ Hg) as Hj.
      split; [by apply dict_del_NoDup|].
      split; [|split; [|split]].
      * intros u j' Hin%dict_del_elem. destruct (Hopen _ _ Hin). lia.
      * intros u j' d Hin [Hd| ->%list_elem_of_singleton]%elem_of_app Hu.
        -- apply dict_del_elem in Hin. eauto.
        -- simpl in Hu. subst u. exfalso.
           apply (dict_del_absent (who evt) (looking_at st) Hn).
           apply list_elem_of_fmap. by exists (who evt, j').
      * intros d [Hd| ->%list_elem_of_singleton]%elem_of_app.
        -- destruct (Hds _ Hd) as (? & ? & ?).
           split; [done|]. split; [lia|]. apply elem_of_union. by right.
        -- simpl. destruct (Hopen _ _ Hj).
           split; [lia|]. split; [lia|].
           apply elem_of_union. left. by apply elem_of_singleton.
      * apply ForallOrdPairs_snoc; [done|].
        intros a Ha Hwho. simpl in *. eauto.
    + (* no open join *)
      rewrite (dict_del_id _ _ Hg).
      split; [done|].
      split; [intros u j' Hin; destruct (Hopen _ _ Hin); lia|].
      case_bool_decide as Hseen.
      * rewrite (right_id_L [] (++)).
        split; [done|]. split; [|done].
        intros d Hd. destruct (Hds _ Hd) as (? & ? & ?).
        split; [done|]. split; [lia|]. apply elem_of_union. by right.
      * split; [|split].
        -- intros u j' d Hin [Hd| ->%list_elem_of_singleton]%elem_of_app Hu;
             [eauto|].
           simpl in Hu. subst u. exfalso.
           apply dict_get_None in Hg. apply Hg.
           apply list_elem_of_fmap. by exists (who evt, j').
        -- intros d [Hd| ->%list_elem_of_singleton]%elem_of_app.
           ++ destruct (Hds _ Hd) as (? & ? & ?).
              split; [done|]. split; [lia|]. apply elem_of_union. by right.
           ++ simpl. split; [lia|]. split; [lia|].
              apply elem_of_union. left. by apply elem_of_singleton.
        -- apply ForallOrdPairs_snoc; [done|].
           intros a Ha Hwho. simpl in Hwho. exfalso.
           destruct (Hds _ Ha) as (_ & _ & Hs). apply Hseen. by rewrite <- Hwho.
Qed.

Lemma scan_inv_fold start_time end_time evts st now :
  time_ordered evts -> Forall (in_window start_time end_time) evts ->
  (forall e, head evts = Some e -> now <= when e) ->
  scan_inv end_time now st ->
  exists now', scan_inv end_time now' (fold_left (scan_step start_time) evts st).
Proof.
  revert st now. induction evts as [|e evts IH]; intros st now Hsort Hwin Hhd Hinv.
  - by exists now.
  - apply Sorted_inv in Hsort as [Hsort Hrel].
    apply Forall_cons in Hwin as [He Hwin]. simpl.
    apply (IH _ (when e)); [done | done | |].
    + intros e' He'. destruct evts as [|e'' evts]; [done|].
      injection He' as ->. by apply HdRel_inv in Hrel.
    + apply (scan_inv_step _ _ now); [done | by apply Hhd | done].
Qed.

Lemma close_item_Some end_time item d :
  close_item end_time item = Some d ->
  d = mkConnectedDuration item.1 item.2 end_time.
Proof. unfold close_item. case_bool_decide; [done|]. by intros [= <-]. Qed.

Lemma closed_items_ordered end_time (items : dict) :
  NoDup items.*1 -> ForallOrdPairs before (omap (close_item end_time) items).
Proof.
  induction items as [|[u j] items IH]; [constructor|].
  rewrite fmap_cons. intros [Hu Hn]%NoDup_cons. cbn [omap list_omap].
  destruct (close_item end_time (u, j)) as [d|] eqn:Hd; [|by apply IH].
  apply close_item_Some in Hd as ->. constructor; [|by apply IH].
  apply Forall_forall. intros b (item & Hitem & Hb)%list_elem_of_omap.
  apply close_item_Some in Hb as ->. intros Hwho. simpl in Hwho, Hu.
  exfalso. apply Hu. rewrite Hwho. by apply list_elem_of_fmap_2.
Qed.

Lemma scan_inv_close end_time now st :
  scan_inv end_time now st ->
  (forall d, d ∈ close_open end_time (looking_at st) (durations st) ->
             joined d <= left d)
  /\ ForallOrdPairs before (close_open end_time (looking_at st) (durations st)).
Proof.
  intros (Hn & Hopen & Hclosed & Hds & Hord). rewrite close_open_omap. split.
  - intros d [Hd|(item & Hitem & Hd)%list_elem_of_omap]%elem_of_app.
    + by destruct (Hds _ Hd).
    + apply close_item_Some in Hd as ->. simpl. destruct item as [u j].
      by destruct (Hopen _ _ Hitem).
  - apply ForallOrdPairs_app; [done | by apply closed_items_ordered |].
    intros a b Ha (item & Hitem & Hb)%list_elem_of_omap.
    apply close_item_Some in Hb as ->. destruct item as [u j].
    intros Hwho. simpl in *. eauto.
Qed.

(** C2. When the events come in the order of their times and lie in the
    window, every interval returned ends no earlier than it starts, and of
    two intervals of one user the one returned first ends before the other
    starts: intervals of one user never overlap. *)
Theorem intervals_of_a_user_do_not_overlap evts start_time end_time :
  time_ordered evts ->
  Forall (in_window start_time end_time) evts ->
  (forall d, d ∈ process_events evts start_time end_time -> joined d <= left d)
  /\ (forall i j a b,
        (i < j)%nat ->
        process_events evts start_time end_time !! i = Some a ->
        process_events evts start_time end_time !! j = Some b ->
        cd_who a = cd_who b -> left a <= joined b)
  /\ (forall i j a b,
        i <> j ->
        process_events evts start_time end_time !! i = Some a ->
        process_events evts start_time end_time !! j = Some b ->
        cd_who a = cd_who b -> ~ overlap a b).
Proof.
  intros Hsort Hwin.
  destruct (scan_inv_fold start_time end_time evts scan_init start_time)
    as [now Hinv]; [done | done | | apply scan_inv_init |].
  { intros e He. rewrite Forall_forall in Hwin.
    apply head_Some_elem_of in He. by destruct (Hwin _ He). }
  destruct (scan_inv_close _ _ _ Hinv) as [Hwf Hord].
  fold (scan_events start_time evts) in Hwf, Hord.
  fold (process_events evts start_time end_time) in Hwf, Hord.
  assert (forall i j a b,
            (i < j)%nat ->
            process_events evts start_time end_time !! i = Some a ->
            process_events evts start_time end_time !! j = Some b ->
            cd_who a = cd_who b -> left a <= joined b) as Hlt.
  { intros i j a b Hij Hi Hj.
    exact (ForallOrdPairs_lookup before _ i j a b Hord Hij Hi Hj). }
  split; [done|]. split; [done|].
  intros i j a b Hij Hi Hj Hwho [H1 H2].
  destruct (decide (i < j)%nat).
  - pose proof (Hlt i j a b ltac:(done) Hi Hj Hwho). lia.
  - pose proof (Hlt j i b a ltac:(lia) Hj Hi (eq_sym Hwho)). lia.
Qed.

Lemma intervals_of_a_user_do_not_overlap_witness :
  process_events [Join 1 10; Leave 1 20; Leave 2 20; Join 1 30; Join 2 35] 0 50
  = [Interval 1 10 20; Interval 2 0 20; Interval 1 30 50; Interval 2 35 50]
  /\ Forall (fun d => joined d <= left d)
       (process_events [Join 1 10; Leave 1 20; Leave 2 20; Join 1 30; Join 2 35] 0 50).
Proof.
  split; [reflexivity|]. apply Forall_forall.
  apply (intervals_of_a_user_do_not_overlap
           [Join 1 10; Leave 1 20; Leave 2 20; Join 1 30; Join 2 35] 0 50).
  - repeat constructor; simpl; lia.
  - repeat constructor; simpl; lia.
Defined.

(** * What the classifier accepts *)

Lemma det_match_chr_inv c p t g r :
  det_match (Chr c :: p) t = Some (g, r) ->
  exists t', t = c :: t' /\ det_match p t' = Some (g, r).
Proof.
  destruct t as [|c' t]; simpl; [done|].
  destruct (Ascii.eqb c c') eqn:Hcc; [|done].
  apply Ascii.eqb_eq in Hcc as <-. eauto.
Qed.

Lemma det_match_dot_inv p t g r :
  det_match (Dot :: p) t = Some (g, r) ->
  exists c t', is_dot c = true /\ t = c :: t' /\ det_match p t' = Some (g, r).
Proof.
  destruct t as [|c t]; simpl; [done|].
  destruct (is_dot c) eqn:Hc; [|done]. eauto.
Qed.

Lemma det_match_opt_inv c p t g r :
  det_match (OptChr c :: p) t = Some (g, r) ->
  exists (taken : bool) t',
    t = (if taken then [c] else []) ++ t' /\ det_match p t' = Some (g, r).
Proof.
  rewrite det_match_opt. destruct t as [|c' t].
  - intros H. by exists false, [].
  - destruct (Ascii.eqb c c') eqn:Hcc.
    + apply Ascii.eqb_eq in Hcc as <-. intros H. by exists true, t.
    + intros H. by exists false, (c' :: t).
Qed.

Lemma det_match_group_inv cls p t g r :
  det_match (Group cls :: p) t = Some (g, r) ->
  exists run rest g',
    run <> [] /\ Forall (fun x => cls x = true) run
    /\ t = run ++ rest /\ g = run :: g' /\ det_match p rest = Some (g', r).
Proof.
  rewrite det_match_group.
  destruct (span cls t) as [[|y run] rest] eqn:Hs; [done|].
  destruct (det_match p rest) as [[g' r']|] eqn:Hd; [|done].
  intros [= <- <-]. apply span_spec in Hs as (-> & Hall & _).
  by exists (y :: run), rest, g'.
Qed.

Lemma det_match_nil_inv t g r :
  det_match [] t = Some (g, r) -> g = [] /\ r = t.
Proof. simpl. by intros [= <- <-]. Qed.

Ltac invert_match H :=
  repeat first
    [ apply det_match_chr_inv in H as (? & -> & H)
    | apply det_match_dot_inv in H as (? & ? & ? & -> & H)
    | apply det_match_opt_inv in H as (? & ? & -> & H)
    | apply det_match_group_inv in H as (? & ? & ? & ? & ? & -> & -> & H)
    | apply det_match_nil_inv in H as [-> ->] ].

Ltac solve_record_shape :=
  do 4 eexists;
  split; [|split; [|split; [|split; [reflexivity|]]]];
  [| | |
   unfold joined_text, left_text, moved_text, mention_text;
   rewrite <- !(assoc_L (++));
   cbn [txt list_ascii_of_string app]; reflexivity];
  done.

Lemma det_match_joined_inv t g r :
  det_match joined_re t = Some (g, r) ->
  exists nick uid chan c,
    digits uid /\ word chan /\ is_dot c = true
    /\ g = [uid; chan] /\ t = joined_text nick uid chan c ++ r.
Proof.
  unfold joined_re, mention, lit.
  cbn [txt list_ascii_of_string map app]. intros H. invert_match H.
  solve_record_shape.
Qed.

Lemma det_match_left_inv t g r :
  det_match left_re t = Some (g, r) ->
  exists nick uid chan c,
    digits uid /\ word chan /\ is_dot c = true
    /\ g = [uid; chan] /\ t = left_text nick uid chan c ++ r.
Proof.
  unfold left_re, mention, lit.
  cbn [txt list_ascii_of_string map app]. intros H. invert_match H.
  solve_record_shape.
Qed.

Lemma det_match_moved_inv t g r :
  det_match moved_re t = Some (g, r) ->
  exists nick uid a b c,
    digits uid /\ word a /\ word b /\ is_dot c = true
    /\ g = [uid; a; b] /\ t = moved_text nick uid a b c ++ r.
Proof.
  unfold moved_re, mention, lit.
  cbn [txt list_ascii_of_string map app]. intros H. invert_match H.
  do 5 eexists.
  split; [|split; [|split; [|split; [|split; [reflexivity|]]]]];
  [| | | |
   unfold moved_text, mention_text; rewrite <- !(assoc_L (++));
   cbn [txt list_ascii_of_string app]; reflexivity];
  done.
Qed.

Lemma str_eqb_true a b : str_eqb a b = true -> a = b.
Proof. unfold str_eqb. apply bool_decide_eq_true_1. Qed.

Lemma match_record_inv d target uid chan type :
  match_record d target = Some (uid, chan, type) ->
  exists nick c rest,
    digits uid /\ word chan /\ is_dot c = true
    /\ ((type = join /\ d = joined_text nick uid chan c ++ rest)
        \/ (type = leave /\ d = left_text nick uid chan c ++ rest)
        \/ (type = join /\ chan = target
            /\ exists a, word a /\ d = moved_text nick uid a chan c ++ rest)
        \/ (type = leave /\ chan <> target
            /\ d = moved_text nick uid target chan c ++ rest)).
Proof.
  unfold match_record.
  rewrite (re_match_det joined_re) by apply joined_re_unambiguous.
  rewrite (re_match_det left_re) by apply left_re_unambiguous.
  rewrite (re_match_det moved_re) by apply moved_re_unambiguous.
  destruct (det_match joined_re d) as [[g r]|] eqn:Hj;
    cbn [fmap option_fmap option_map fst].
  { apply det_match_joined_inv in Hj
      as (nick & uid' & chan' & c & Hu & Hc & Hd & -> & ->).
    intros [= <- <- <-]. exists nick, c, r.
    split; [done|]. split; [done|]. split; [done|]. by left. }
  destruct (det_match left_re d) as [[g r]|] eqn:Hl;
    cbn [fmap option_fmap option_map fst].
  { apply det_match_left_inv in Hl
      as (nick & uid' & chan' & c & Hu & Hc & Hd & -> & ->).
    intros [= <- <- <-]. exists nick, c, r.
    split; [done|]. split; [done|]. split; [done|]. right. by left. }
  destruct (det_match moved_re d) as [[g r]|] eqn:Hm;
    cbn [fmap option_fmap option_map fst]; [|done].
  apply det_match_moved_inv in Hm
    as (nick & uid' & a & b & c & Hu & Ha & Hb & Hd & -> & ->).
  destruct (str_eqb b target) eqn:Hbt.
  - apply str_eqb_true in Hbt as <-. intros [= <- <- <-].
    exists nick, c, r.
    split; [done|]. split; [done|]. split; [done|]. right. right. left. eauto.
  - destruct (str_eqb a target) eqn:Hat; [|done].
    apply str_eqb_true in Hat as <-. intros [= <- <- <-].
    exists nick, c, r.
    split; [done|]. split; [done|]. split; [done|]. right. right. right.
    split; [done|]. split; [|done]. intros ->. by rewrite str_eqb_refl in Hbt.
Qed.

Lemma from_embed_inv emb target e :
  from_embed emb target = Some e ->
  exists d ts nick uid c rest,
    description emb = Some d /\ timestamp emb = Some ts
    /\ digits uid /\ word target /\ is_dot c = true
    /\ who e = int uid /\ when e = ts
    /\ ((action e = join /\ d = joined_text nick uid target c ++ rest)
        \/ (action e = leave /\ d = left_text nick uid target c ++ rest)
        \/ (action e = join
            /\ exists a, word a /\ d = moved_text nick uid a target c ++ rest)).
Proof.
  unfold from_embed. destruct (description emb) as [d|]; [|done].
  destruct (match_record d target) as [[[uid chan] type]|] eqn:Hr; [|done].
  destruct (str_eqb chan target) eqn:Hct; [|done]. cbn [negb].
  apply str_eqb_true in Hct as ->.
  destruct (timestamp emb) as [ts|]; [|done]. intros [= <-].
  apply match_record_inv in Hr as (nick & c & rest & Hu & Hc & Hd & Hshape).
  exists d, ts, nick, uid, c, rest.
  do 7 (split; [done|]).
  destruct Hshape as [[-> ->]|[[-> ->]|[(-> & _ & a & Ha & ->)|(_ & Hne & _)]]];
    [by left | by right; left | right; right; eauto | done].
Qed.

(** X1. Every event comes from a text that starts with a join or leave record
    of the target channel, or with a move record into it; the event has the
    user id of the mention and the time of the embed.  A move record never
    gives a leave. *)
Theorem from_embed_sound emb target e :
  from_embed emb target = Some e ->
  exists d ts nick uid c rest,
    description emb = Some d /\ timestamp emb = Some ts
    /\ digits uid /\ word target /\ is_dot c = true
    /\ who e = int uid /\ when e = ts
    /\ ((action e = join /\ d = joined_text nick uid target c ++ rest)
        \/ (action e = leave /\ d = left_text nick uid target c ++ rest)
        \/ (action e = join
            /\ exists a, word a /\ d = moved_text nick uid a target c ++ rest)).
Proof. exact (from_embed_inv emb target e). Qed.

Lemma from_embed_sound_witness :
  exists d ts nick uid c rest,
    description (mkEmbed (Some (txt "<@!42> left **vc**. bye")) (Some 5)) = Some d
    /\ timestamp (mkEmbed (Some (txt "<@!42> left **vc**. bye")) (Some 5)) = Some ts
    /\ digits uid /\ word (txt "vc") /\ is_dot c = true
    /\ who (mkStalkEvent 42 5 leave) = int uid /\ when (mkStalkEvent 42 5 leave) = ts
    /\ ((action (mkStalkEvent 42 5 leave) = join
         /\ d = joined_text nick uid (txt "vc") c ++ rest)
        \/ (action (mkStalkEvent 42 5 leave) = leave
            /\ d = left_text nick uid (txt "vc") c ++ rest)
        \/ (action (mkStalkEvent 42 5 leave) = join
            /\ exists a, word a /\ d = moved_text nick uid a (txt "vc") c ++ rest)).
Proof.
  apply (from_embed_sound
           (mkEmbed (Some (txt "<@!42> left **vc**. bye")) (Some 5)) (txt "vc")
           (mkStalkEvent 42 5 leave)).
  reflexivity.
Defined.

Lemma digit_value_range c : is_digit c = true -> 0 <= digit_value c <= 9.
Proof.
  unfold is_digit, digit_value. intros [H1 H2]%andb_true_iff.
  apply N.leb_le in H1, H2. lia.
Qed.

Lemma int_snoc x c : int (x ++ [c]) = 10 * int x + digit_value c.
Proof. unfold int. by rewrite fold_left_app. Qed.

Lemma int_nonneg x : Forall (fun c => is_digit c = true) x -> 0 <= int x.
Proof.
  induction x as [|c x IH] using rev_ind; [done|].
  intros [Hx Hc]%Forall_app. apply Forall_cons in Hc as [Hc _].
  rewrite int_snoc. apply digit_value_range in Hc. specialize (IH Hx). lia.
Qed.

Lemma int_leading_zero x : int ("0"%char :: x) = int x.
Proof. reflexivity. Qed.

Lemma from_embed_who_ge0 emb target e :
  from_embed emb target = Some e -> 0 <= who e.
Proof.
  intros (d & ts & nick & uid & c & rest & _ & _ & [_ Hu] & _ & _ & -> & _)
    %from_embed_inv.
  by apply int_nonneg.
Qed.

(** X2. The user id of an event is never negative. *)
Theorem from_embed_who_nonneg emb target e :
  from_embed emb target = Some e -> 0 <= who e.
Proof. exact (from_embed_who_ge0 emb target e). Qed.

Lemma from_embed_who_nonneg_witness :
  (0 <=? who (mkStalkEvent 1 5 join)) = true.
Proof.
  apply Z.leb_le.
  apply (from_embed_who_nonneg
           (mkEmbed (Some (txt "<@1> joined **vc**.")) (Some 5)) (txt "vc")).
  reflexivity.
Defined.

(** X3. A record of another channel is no event: a join or leave record whose
    channel is not the target, and a move record whose destination is not
    the target. *)
Theorem other_channel_no_event nick uid chan from_chan c x ots target :
  digits uid -> word chan -> word from_chan -> is_dot c = true ->
  chan <> target ->
  from_embed (mkEmbed (Some (joined_text nick uid chan c ++ x)) ots) target = None
  /\ from_embed (mkEmbed (Some (left_text nick uid chan c ++ x)) ots) target = None
  /\ from_embed (mkEmbed (Some (moved_text nick uid from_chan chan c ++ x)) ots) target
     = None.
Proof.
  intros Hu Hc Hf Hd Hne. unfold from_embed. cbn [description timestamp].
  rewrite match_record_joined, match_record_left, match_record_moved by done.
  rewrite (str_eqb_ne chan target Hne). cbn [negb].
  split; [done|]. split; [done|].
  destruct (str_eqb from_chan target); [|done].
  by rewrite (str_eqb_ne chan target Hne).
Qed.

Lemma other_channel_no_event_witness :
  from_embed (mkEmbed (Some (txt "<@1> joined **lobby**.")) (Some 0)) (txt "vc") = None
  /\ from_embed (mkEmbed (Some (txt "<@1> left **lobby**.")) (Some 0)) (txt "vc") = None
  /\ from_embed (mkEmbed (Some (txt "<@1> moved from **vc** to **lobby**."))
       (Some 0)) (txt "vc") = None.
Proof.
  apply (other_channel_no_event false (txt "1") (txt "lobby") (txt "vc") "." []
           (Some 0) (txt "vc")); [apply digits_1 | | apply word_vc | done | done].
  split; [done | by repeat constructor].
Defined.

(** X4. The nickname marker and zeros before the user id do not change the
    event: [<@!007>] is the user of [<@7>]. *)
Theorem mention_forms_same_user nick nick' uid chan c x ts :
  digits uid -> word chan -> is_dot c = true ->
  from_embed (mkEmbed (Some (joined_text nick ("0"%char :: uid) chan c ++ x)) (Some ts)) chan
  = from_embed (mkEmbed (Some (joined_text nick' uid chan c ++ x)) (Some ts)) chan
  /\ from_embed (mkEmbed (Some (left_text nick ("0"%char :: uid) chan c ++ x)) (Some ts)) chan
     = from_embed (mkEmbed (Some (left_text nick' uid chan c ++ x)) (Some ts)) chan.
Proof.
  intros [Hu1 Hu2] Hc Hd.
  assert (digits ("0"%char :: uid)) as Hu0.
  { split; [done|]. by constructor. }
  by rewrite !from_embed_joined, !from_embed_left, int_leading_zero.
Qed.

Lemma mention_forms_same_user_witness :
  from_embed (mkEmbed (Some (txt "<@!01> joined **vc**.")) (Some 5)) (txt "vc")
  = from_embed (mkEmbed (Some (txt "<@1> joined **vc**.")) (Some 5)) (txt "vc").
Proof.
  apply (mention_forms_same_user true false (txt "1") (txt "vc") "." [] 5
           digits_1 word_vc eq_refl).
Defined.

(** * The state of the scan after any events *)

Lemma looking_at_snoc start_time evts evt :
  looking_at (scan_events start_time (evts ++ [evt]))
  = dict_op evt (looking_at (scan_events start_time evts)).
Proof. by rewrite scan_events_snoc, scan_step_effects. Qed.

Lemma durations_snoc start_time evts evt :
  durations (scan_events start_time (evts ++ [evt]))
  = durations (scan_events start_time evts)
    ++ emitted start_time (scan_events start_time evts) evt.
Proof. by rewrite scan_events_snoc, scan_step_effects. Qed.

Lemma scan_events_NoDup start_time evts :
  NoDup (looking_at (scan_events start_time evts)).*1.
Proof. apply scan_fold_NoDup, NoDup_nil_2. Qed.

Lemma open_join_last start_time evts u :
  dict_get u (looking_at (scan_events start_time evts))
  = match last_event u evts with
    | Some e => match action e with join => Some (when e) | leave => None end
    | None => None
    end.
Proof.
  unfold last_event. induction evts as [|e evts IH] using rev_ind; [done|].
  rewrite looking_at_snoc, dict_get_map, dict_op_map
    by apply scan_events_NoDup.
  rewrite filter_app, filter_cons, filter_nil.
  destruct (decide (who e = u)) as [Hu|Hu].
  - rewrite last_snoc. unfold map_op. rewrite <- Hu.
    destruct (action e); [apply lookup_insert_eq | apply lookup_delete_eq].
  - rewrite (right_id_L [] (++)), map_op_lookup_ne by done.
    by rewrite <- dict_get_map.
Qed.

(** X6. A user has an open join after the scan exactly when the user's last
    event is a join, and the open join carries the time of that event. *)
Theorem open_join_is_last_event start_time evts u :
  dict_get u (looking_at (scan_events start_time evts))
  = match last_event u evts with
    | Some e => match action e with join => Some (when e) | leave => None end
    | None => None
    end.
Proof. exact (open_join_last start_time evts u). Qed.

Lemma process_events_split evts start_time end_time :
  process_events evts start_time end_time
  = durations (scan_events start_time evts)
    ++ omap (close_item end_time) (looking_at (scan_events start_time evts)).
Proof. unfold process_events. apply close_open_omap. Qed.

(** X7. A user whose last event is a join, at most twelve hours before the end
    of the window, is returned as connected from that join to the end. *)
Theorem still_connected_at_end evts start_time end_time u ev :
  last_event u evts = Some ev -> action ev = join ->
  end_time - when ev <= hours 12 ->
  Interval u (when ev) end_time ∈ process_events evts start_time end_time.
Proof.
  intros Hlast Hact Hage.
  pose proof (open_join_last start_time evts u) as Hopen.
  rewrite Hlast, Hact in Hopen. apply dict_get_elem in Hopen.
  rewrite process_events_split. apply elem_of_app. right.
  apply list_elem_of_omap. exists (u, when ev). split; [done|].
  unfold close_item. rewrite bool_decide_eq_false_2; [done|].
  unfold hours, seconds in *. simpl. lia.
Qed.

Lemma still_connected_at_end_witness :
  Interval 1 30 50 ∈ process_events [Join 1 10; Leave 1 20; Join 2 25; Join 1 30] 0 50.
Proof.
  apply (still_connected_at_end [Join 1 10; Leave 1 20; Join 2 25; Join 1 30]
           0 50 1 (Join 1 30)); [reflexivity | reflexivity |].
  vm_compute. discriminate.
Defined.

Lemma event_join_eta e : action e = join -> Join (who e) (when e) = e.
Proof. destruct e as [u t a]. simpl. by intros ->. Qed.

Lemma event_leave_eta e : action e = leave -> Leave (who e) (when e) = e.
Proof. destruct e as [u t a]. simpl. by intros ->. Qed.

Lemma scan_provenance start_time evts :
  (forall u j, (u, j) ∈ looking_at (scan_events start_time evts) ->
               Join u j ∈ evts)
  /\ (forall d, d ∈ durations (scan_events start_time evts) ->
                Leave (cd_who d) (left d) ∈ evts
                /\ (joined d = start_time \/ Join (cd_who d) (joined d) ∈ evts)).
Proof.
  induction evts as [|e evts [IHopen IHclosed]] using rev_ind.
  - split; [intros u j H | intros d H]; by apply elem_of_nil in H.
  - rewrite looking_at_snoc, durations_snoc. split.
    + intros u j. unfold dict_op. rewrite elem_of_app.
      destruct (action e) eqn:Hact.
      * intros [[= -> ->]|Hin]%dict_set_elem; [|by left; apply IHopen].
        right. apply list_elem_of_singleton. by apply event_join_eta.
      * intros Hin%dict_del_elem. left. by apply IHopen.
    + intros d [Hd|Hd]%elem_of_app.
      * destruct (IHclosed d Hd) as [Hl Hj]. rewrite !elem_of_app.
        split; [by left|]. destruct Hj; [by left | by right; left].
      * unfold emitted, emit in Hd. destruct (action e) eqn:Hact;
          [by apply elem_of_nil in Hd|].
        assert (Leave (who e) (when e) ∈ evts ++ [e]) as Hleave.
        { apply elem_of_app. right. apply list_elem_of_singleton.
          by apply event_leave_eta. }
        destruct (dict_get _ _) as [j|] eqn:Hg.
        -- apply list_elem_of_singleton in Hd as ->. simpl.
           split; [done|]. right. apply elem_of_app. left.
           by apply IHopen, dict_get_elem.
        -- destruct (bool_decide _); [by apply elem_of_nil in Hd|].
           apply list_elem_of_singleton in Hd as ->. simpl.
           split; [done | by left].
Qed.

Lemma interval_origin evts start_time end_time d :
  d ∈ process_events evts start_time end_time ->
  (Leave (cd_who d) (left d) ∈ evts
   /\ (joined d = start_time \/ Join (cd_who d) (joined d) ∈ evts))
  \/ (Join (cd_who d) (joined d) ∈ evts
      /\ left d = end_time /\ end_time - joined d <= hours 12).
Proof.
  destruct (scan_provenance start_time evts) as [Hopen Hclosed].
  rewrite process_events_split.
  intros [Hd|([u j] & Hitem & Hd)%list_elem_of_omap]%elem_of_app.
  - left. by apply Hclosed.
  - right. unfold close_item in Hd. simpl in Hd.
    case_bool_decide as Hage; [done|]. injection Hd as <-. simpl.
    split; [by apply Hopen|]. split; [done|].
    unfold hours, seconds in *. lia.
Qed.

(** X8. No interval is made up: it ends at a leave of its user and starts at
    the start of the window or at a join of that user, or it starts at a
    join of its user, at most twelve hours old, and ends with the window. *)
Theorem interval_provenance evts start_time end_time d :
  d ∈ process_events evts start_time end_time ->
  (Leave (cd_who d) (left d) ∈ evts
   /\ (joined d = start_time \/ Join (cd_who d) (joined d) ∈ evts))
  \/ (Join (cd_who d) (joined d) ∈ evts
      /\ left d = end_time /\ end_time - joined d <= hours 12).
Proof. exact (interval_origin evts start_time end_time d). Qed.

Lemma interval_provenance_witness :
  (Leave 2 20 ∈ [Join 1 10; Leave 2 20]
   /\ (0 = 0 \/ Join 2 0 ∈ [Join 1 10; Leave 2 20]))
  \/ (Join 2 0 ∈ [Join 1 10; Leave 2 20] /\ 20 = 50 /\ 50 - 0 <= hours 12).
Proof.
  apply (interval_provenance [Join 1 10; Leave 2 20] 0 50 (Interval 2 0 20)).
  apply list_elem_of_here.
Defined.

(** X9. When every event lies in the window, so does every interval, whatever
    the order of the events. *)
Theorem intervals_in_window evts start_time end_time d :
  Forall (in_window start_time end_time) evts ->
  d ∈ process_events evts start_time end_time ->
  start_time <= joined d <= end_time /\ start_time <= left d <= end_time.
Proof.
  intros Hwin Hd. rewrite Forall_forall in Hwin.
  assert (forall u t a, mkStalkEvent u t a ∈ evts ->
            start_time <= t <= end_time) as Hev.
  { intros u t a Hin. exact (Hwin _ Hin). }
  destruct (interval_origin _ _ _ _ Hd)
    as [[Hl%Hev [->|Hj%Hev]]|(Hj%Hev & -> & _)]; lia.
Qed.

Lemma intervals_in_window_witness :
  0 <= joined (Interval 2 0 20) <= 50 /\ 0 <= left (Interval 2 0 20) <= 50.
Proof.
  apply (intervals_in_window [Join 1 10; Leave 2 20] 0 50 (Interval 2 0 20)).
  - repeat constructor; simpl; lia.
  - apply list_elem_of_here.
Defined.

Lemma dict_set_length k v d : (length (dict_set k v d) <= S (length d))%nat.
Proof.
  induction d as [|[k' v'] d IH]; simpl; [lia|].
  case_bool_decide; simpl; lia.
Qed.

Lemma dict_del_length k d : (length (dict_del k d) <= length d)%nat.
Proof.
  induction d as [|[k' v'] d IH]; simpl; [lia|].
  case_bool_decide; simpl; lia.
Qed.

Lemma dict_del_length_Some k v d :
  dict_get k d = Some v -> S (length (dict_del k d)) = length d.
Proof.
  induction d as [|[k' v'] d IH]; simpl; [done|].
  case_bool_decide; simpl; [done|]. intros Hg. by rewrite IH.
Qed.

Lemma scan_events_length start_time evts :
  (length (durations (scan_events start_time evts))
   + length (looking_at (scan_events start_time evts)) <= length evts)%nat.
Proof.
  induction evts as [|e evts IH] using rev_ind; [done|].
  rewrite looking_at_snoc, durations_snoc, !length_app.
  unfold dict_op, emitted, emit. destruct (action e); simpl.
  - pose proof (dict_set_length (who e) (when e)
                  (looking_at (scan_events start_time evts))). lia.
  - destruct (dict_get _ _) as [j|] eqn:Hg; simpl.
    + apply dict_del_length_Some in Hg. lia.
    + pose proof (dict_del_length (who e)
                    (looking_at (scan_events start_time evts))).
      destruct (bool_decide _); simpl; lia.
Qed.

Lemma omap_length_le {A B} (f : A -> option B) (l : list A) :
  (length (omap f l) <= length l)%nat.
Proof.
  induction l as [|x l IH]; [done|]. cbn [omap list_omap].
  destruct (f x); simpl; lia.
Qed.

(** X10. There are never more intervals than events. *)
Theorem no_more_intervals_than_events evts start_time end_time :
  (length (process_events evts start_time end_time) <= length evts)%nat.
Proof.
  rewrite process_events_split, length_app.
  pose proof (scan_events_length start_time evts).
  pose proof (omap_length_le (close_item end_time)
                (looking_at (scan_events start_time evts))). lia.
Qed.

(** X11. The intervals closed by leaves are never taken back: after more events
    the scan holds the same intervals, followed by new ones. *)
Theorem closed_intervals_are_kept start_time evts more :
  durations (scan_events start_time evts)
  `prefix_of` durations (scan_events start_time (evts ++ more)).
Proof.
  induction more as [|e more IH] using rev_ind.
  - by rewrite (right_id_L [] (++)).
  - rewrite (assoc_L (++)), durations_snoc.
    by apply prefix_app_r.
Qed.

Lemma scan_step_start s1 s2 st evt :
  (action evt = leave -> who evt ∈ seen st) ->
  scan_step s1 st evt = scan_step s2 st evt.
Proof.
  intros Hseen. unfold scan_step. destruct (action evt); [done|].
  destruct (dict_get _ _); [done|].
  by rewrite bool_decide_eq_false_2 by (intros Hn; by apply Hn, Hseen).
Qed.

Lemma joins_first_snoc evts e :
  joins_first (evts ++ [e]) ->
  joins_first evts /\ (action e = leave -> who e ∈ (who <$> evts)).
Proof.
  intros H. split.
  - intros pre x post -> Hact.
    apply (H pre x (post ++ [e])); [|done].
    by rewrite <- (assoc_L (++)).
  - apply (H evts e []). done.
Qed.

(** X12. The start of the window matters only for users first seen leaving:
    when no user is, the result is the same for every start. *)
Theorem start_time_only_for_first_leaves evts s1 s2 end_time :
  joins_first evts ->
  process_events evts s1 end_time = process_events evts s2 end_time.
Proof.
  intros Hfirst. unfold process_events.
  assert (scan_events s1 evts = scan_events s2 evts) as ->; [|done].
  induction evts as [|e evts IH] using rev_ind; [done|].
  apply joins_first_snoc in Hfirst as [Hfirst He].
  rewrite !scan_events_snoc, (IH Hfirst).
  apply scan_step_start. intros Hact. rewrite seen_scan_events.
  by apply elem_of_list_to_set, He.
Qed.

Lemma start_time_only_for_first_leaves_witness :
  process_events [Join 1 10; Leave 1 20; Join 2 30] 0 50
  = process_events [Join 1 10; Leave 1 20; Join 2 30] 5 50.
Proof.
  apply (start_time_only_for_first_leaves [Join 1 10; Leave 1 20; Join 2 30] 0 5 50).
  intros pre e post Heq Hact.
  destruct pre as [|e0 [|e1 [|e2 pre]]]; simpl in Heq.
  - injection Heq as <- <-. discriminate Hact.
  - injection Heq as <- <- <-. apply list_elem_of_here.
  - injection Heq as <- <- <- <-. discriminate Hact.
  - injection Heq as _ _ _ Heq. by destruct pre.
Defined.

(** * The filter after the reconstructor *)

Lemma ForallOrdPairs_sublist {A} (R : A -> A -> Prop) l1 l2 :
  sublist l1 l2 -> ForallOrdPairs R l2 -> ForallOrdPairs R l1.
Proof.
  induction 1 as [|x l1 l2 Hsub IH|x l1 l2 Hsub IH]; intros H2.
  - constructor.
  - inversion H2 as [|? ? Hx Hl2]; subst. constructor; [|by apply IH].
    rewrite Forall_forall in Hx. apply Forall_forall. intros y Hy.
    apply Hx. by eapply elem_of_sublist.
  - inversion H2 as [|? ? Hx Hl2]; subst. by apply IH.
Qed.

(** X13. When the events come in the order of their times, the intervals that
    pass the filter are, for each user, one after the other: each lasts
    more than 600 seconds and ends before the next one starts. *)
Theorem kept_intervals_follow_each_other evts start_time end_time i j a b :
  time_ordered evts ->
  Forall (in_window start_time end_time) evts ->
  (i < j)%nat ->
  keep_long (process_events evts start_time end_time) !! i = Some a ->
  keep_long (process_events evts start_time end_time) !! j = Some b ->
  cd_who a = cd_who b ->
  joined a + seconds 600 < left a /\ left a <= joined b
  /\ joined b + seconds 600 < left b.
Proof.
  intros Hsort Hwin Hij Hi Hj Hwho.
  destruct (scan_inv_fold start_time end_time evts scan_init start_time)
    as [now Hinv]; [done | done | | apply scan_inv_init |].
  { intros e He. rewrite Forall_forall in Hwin.
    apply head_Some_elem_of in He. by destruct (Hwin _ He). }
  destruct (scan_inv_close _ _ _ Hinv) as [_ Hord].
  fold (scan_events start_time evts) in Hord.
  fold (process_events evts start_time end_time) in Hord.
  rewrite keep_long_filter in Hi, Hj.
  pose proof (ForallOrdPairs_sublist _ _ _
                (sublist_filter long_enough _) Hord) as Hkept.
  pose proof (ForallOrdPairs_lookup before _ i j a b Hkept Hij Hi Hj Hwho).
  apply list_elem_of_lookup_2 in Hi, Hj.
  apply list_elem_of_filter in Hi as [Ha _], Hj as [Hb _].
  unfold long_enough in *. lia.
Qed.

Lemma kept_intervals_follow_each_other_witness :
  (0 + seconds 600 <? seconds 700) = true
  /\ (seconds 700 <=? seconds 800) = true
  /\ (seconds 800 + seconds 600 <? seconds 1600) = true.
Proof.
  pose proof (kept_intervals_follow_each_other
                [Join 1 0; Leave 1 (seconds 700); Join 1 (seconds 800);
                 Leave 1 (seconds 1600)]
                0 (seconds 2000) 0 1
                (Interval 1 0 (seconds 700))
                (Interval 1 (seconds 800) (seconds 1600))) as H.
  destruct H as (H1 & H2 & H3).
  - repeat constructor; vm_compute; discriminate.
  - repeat constructor; vm_compute; discriminate.
  - lia.
  - reflexivity.
  - reflexivity.
  - reflexivity.
  - split; [by apply Z.ltb_lt|]. split; [by apply Z.leb_le | by apply Z.ltb_lt].
Defined.

(** * Reading the history *)

Lemma read_message_event channel_name events message :
  read_message channel_name events message
  = events ++ option_list (message_event channel_name message).
Proof.
  unfold read_message, message_event.
  case_bool_decide; simpl; [|by rewrite app_nil_r].
  destruct (embeds message) as [|stalk_embed rest]; simpl;
    [by rewrite app_nil_r|].
  destruct (from_embed stalk_embed channel_name); simpl;
    [done | by rewrite app_nil_r].
Qed.

Lemma read_fold channel_name history events :
  fold_left (read_message channel_name) history events
  = events ++ omap (message_event channel_name) history.
Proof.
  revert events. induction history as [|m history IH]; intros events.
  - cbn [fold_left omap list_omap]. by rewrite app_nil_r.
  - cbn [fold_left omap list_omap]. rewrite IH, read_message_event.
    rewrite <- (assoc_L (++)). by destruct (message_event channel_name m).
Qed.

Lemma read_history_omap history channel_name :
  read_history history channel_name
  = omap (message_event channel_name) history.
Proof. unfold read_history. by rewrite read_fold. Qed.

(** X14. The events of a history are those of its parts, in order.  A message
    of another author or without an embed adds nothing, wherever it is,
    and of the embeds of a message only the first is read. *)
Theorem read_history_messages h1 h2 channel_name :
  read_history (h1 ++ h2) channel_name
  = read_history h1 channel_name ++ read_history h2 channel_name
  /\ (forall m, author_id m <> relay_id \/ embeds m = [] ->
        read_history (h1 ++ m :: h2) channel_name
        = read_history (h1 ++ h2) channel_name)
  /\ (forall author stalk_embed rest,
        read_history (h1 ++ mkMessage author (stalk_embed :: rest) :: h2) channel_name
        = read_history (h1 ++ mkMessage author [stalk_embed] :: h2) channel_name).
Proof.
  rewrite !read_history_omap. split; [apply omap_app|]. split.
  - intros m Hm. rewrite !read_history_omap, !omap_app. f_equal.
    cbn [omap list_omap]. unfold message_event.
    destruct Hm as [Hm| ->]; [by rewrite bool_decide_eq_false_2|].
    by case_bool_decide.
  - intros author stalk_embed rest. by rewrite !read_history_omap, !omap_app.
Qed.

Lemma read_history_elem history channel_name e :
  e ∈ read_history history channel_name ->
  exists stalk_embed, from_embed stalk_embed channel_name = Some e.
Proof.
  rewrite read_history_omap. intros (m & _ & Hm)%list_elem_of_omap.
  unfold message_event in Hm. case_bool_decide; [|done].
  destruct (head (embeds m)) as [stalk_embed|]; [eauto | done].
Qed.







(** * User ids in the rows of the table *)

Lemma digit_value_pretty d :
  (d < 10)%N -> digit_value (pretty_N_char d) = Z.of_N d.
Proof.
  intros Hd.
  assert (d = 0 \/ d = 1 \/ d = 2 \/ d = 3 \/ d = 4 \/ d = 5 \/ d = 6
          \/ d = 7 \/ d = 8 \/ d = 9)%N as Hcases by lia.
  repeat (destruct Hcases as [->|Hcases]; [reflexivity|]). by subst.
Qed.

Lemma int_pretty_N_go x acc :
  int (list_ascii_of_string (pretty_N_go x acc))
  = fold_left (fun a c => 10 * a + digit_value c)
      (list_ascii_of_string acc) (Z.of_N x).
Proof.
  revert acc. induction (N.lt_wf_0 x) as [x _ IH]. intros acc.
  destruct (decide (x = 0)%N) as [->|Hx]; [done|].
  rewrite pretty_N_go_step by lia.
  rewrite IH by (apply N.div_lt; lia). cbn [list_ascii_of_string fold_left].
  rewrite digit_value_pretty by (apply N.mod_lt; lia).
  f_equal. rewrite (N.div_mod x 10) at 3 by done. lia.
Qed.

Lemma int_str_int n : 0 <= n -> int (str_int n) = n.
Proof.
  unfold str_int, pretty, pretty_Z. destruct n as [|p|p]; [done| |lia].
  intros _. unfold pretty, pretty_positive, pretty, pretty_N.
  rewrite decide_False by done. by rewrite int_pretty_N_go.
Qed.

Lemma stalk_durations_who_nonneg history channel_name now delta_hours d :
  d ∈ stalk_durations history channel_name now delta_hours -> 0 <= cd_who d.
Proof.
  unfold stalk_durations. rewrite keep_long_filter.
  intros [_ Hd]%list_elem_of_filter.
  assert (exists t a, mkStalkEvent (cd_who d) t a ∈ read_history history channel_name)
    as (t & a & Hev).
  { destruct (interval_origin _ _ _ _ Hd) as [[Hl _]|[Hj _]]; eauto. }
  apply read_history_elem in Hev as [stalk_embed Hemb].
  by apply from_embed_who_ge0 in Hemb.
Qed.

(** X16. The user id written in a row of the table, read back as a number, is
    the user of the interval of that row. *)
Theorem csv_user_ids_read_back isoformat history channel_name now delta_hours :
  map (fun row => int row.1.1)
    (csv_rows isoformat (stalk_durations history channel_name now delta_hours))
  = map cd_who (stalk_durations history channel_name now delta_hours).
Proof.
  pose proof (stalk_durations_who_nonneg history channel_name now delta_hours) as H.
  induction (stalk_durations history channel_name now delta_hours) as [|d ds IH];
    [done|].
  cbn [csv_rows map fst]. f_equal.
  - apply int_str_int, H, list_elem_of_here.
  - apply IH. intros d' Hd'. by apply H, list_elem_of_further.
Qed.

(** * The rows and colours of the plot *)

Lemma dict_set_fresh k v d : k ∉ d.*1 -> dict_set k v d = d ++ [(k, v)].
Proof.
  induction d as [|[k' v'] d IH]; [done|]. rewrite fmap_cons. cbn [fst].
  intros [Hk Hd]%not_elem_of_cons. cbn [dict_set].
  rewrite bool_decide_eq_false_2 by done. by rewrite IH.
Qed.

Lemma dict_get_app_l k v d d' :
  dict_get k d = Some v -> dict_get k (d ++ d') = Some v.
Proof.
  induction d as [|[k' v'] d IH]; [done|]. simpl.
  by case_bool_decide.
Qed.

Lemma dict_get_snoc_fresh k v d :
  dict_get k d = None -> dict_get k (d ++ [(k, v)]) = Some v.
Proof.
  induction d as [|[k' v'] d IH]; simpl.
  - intros _. by rewrite bool_decide_eq_true_2.
  - by case_bool_decide.
Qed.

Lemma dict_get_values_inj u1 u2 c (d : dict) :
  NoDup d.*2 -> dict_get u1 d = Some c -> dict_get u2 d = Some c -> u1 = u2.
Proof.
  intros Hnd H1%dict_get_elem H2%dict_get_elem.
  apply list_elem_of_lookup in H1 as [i Hi], H2 as [j Hj].
  assert (i = j) as ->.
  { apply (NoDup_lookup d.*2 i j c); [done|..];
      rewrite list_lookup_fmap; [by rewrite Hi | by rewrite Hj]. }
  congruence.
Qed.

Lemma colour_of_inj c1 c2 : colour_of c1 = colour_of c2 -> c1 = c2.
Proof.
  unfold colour_of, str_int. intros [= H].
  apply (f_equal string_of_list_ascii) in H.
  rewrite !string_of_list_ascii_of_string in H.
  by apply (inj pretty) in H.
Qed.

Section PlotFacts.

Context {User F : Type}.
Variable get_user : Z -> option User.
Variable user_name : User -> str.
Variable date2num : datetime -> F.
Variables below above : Z -> F.

Local Abbreviation step := (plot_step get_user user_name date2num below above).
Local Abbreviation loop := (plot_loop get_user user_name date2num below above).
Local Abbreviation inv := (plot_inv get_user user_name date2num below above).
Local Abbreviation rect := (rectangle date2num below above).

Lemma plot_loop_snoc ds d : loop (ds ++ [d]) = step (loop ds) d.
Proof. unfold plot_loop. by rewrite fold_left_app. Qed.

Lemma drawn_snoc ds d :
  drawn get_user (ds ++ [d])
  = drawn get_user ds
    ++ (if decide (is_Some (get_user (cd_who d))) then [d] else []).
Proof. unfold drawn. by rewrite filter_app, filter_cons, filter_nil. Qed.

Lemma plot_inv_init : inv [] plot_init.
Proof.
  unfold plot_inv, plot_init. simpl.
  split; [apply NoDup_nil_2|]. split; [done|]. split; [done|].
  split.
  { intros u. split; intros H;
      [by apply not_elem_of_empty in H | by apply elem_of_nil in H]. }
  repeat split; constructor.
Qed.

Lemma plot_inv_step ds st d : inv ds st -> inv (ds ++ [d]) (step st d).
Proof.
  intros (Hnd & Hval & Hcnt & Hseen & Hnames & Hrect & Hcol).
  assert (forall u, u ∈ (categories st).*1 -> is_Some (get_user u)) as Hknown.
  { intros u Hu. apply list_elem_of_lookup in Hu as [i Hi].
    destruct (Forall2_lookup_l _ _ _ _ _ Hnames Hi) as (name & _ & user & Hus & _).
    by rewrite Hus. }
  unfold plot_inv. rewrite !drawn_snoc.
  unfold plot_step, categories_get, increment.
  destruct (decide (cd_who d ∈ seen_names st)) as [Hin|Hnin].
  - (* a user the loop has named *)
    rewrite bool_decide_eq_false_2 by (intros Hn; by apply Hn).
    pose proof (proj1 (Hseen _) Hin) as Hkey.
    rewrite decide_True by by apply Hknown.
    destruct (dict_get (cd_who d) (categories st)) as [c|] eqn:Hg;
      [|by apply dict_get_None in Hg].
    simpl.
    do 5 (split; [done|]). split.
    + apply Forall2_app; [done|]. repeat constructor. by exists c.
    + apply Forall2_app; [done|]. repeat constructor. by exists c.
  - rewrite bool_decide_eq_true_2 by done.
    destruct (get_user (cd_who d)) as [user|] eqn:Huser.
    + (* a new user *)
      assert (cd_who d ∉ (categories st).*1) as Hfresh
        by (intros Hk; by apply Hnin, Hseen).
      pose proof (proj2 (dict_get_None _ _) Hfresh) as Hg.
      rewrite Hg, dict_set_fresh by done.
      rewrite decide_True by done.
      simpl. rewrite !fmap_app, length_app. simpl.
      split.
      { apply NoDup_app. split; [done|]. split; [|apply NoDup_singleton].
        intros x Hx ->%list_elem_of_singleton. done. }
      split.
      { rewrite Hval, Nat.add_1_r, seq_S, fmap_app. simpl.
        rewrite Hcnt. do 3 f_equal. lia. }
      split; [rewrite Hcnt; lia|].
      split.
      { intros u. rewrite elem_of_union, elem_of_singleton, elem_of_app,
          list_elem_of_singleton, Hseen. tauto. }
      split.
      { apply Forall2_app; [done|]. repeat constructor. by exists user. }
      split.
      * apply Forall2_app.
        -- eapply Forall2_impl; [exact Hrect|].
           intros d' v (c & Hc & ->). exists c. split; [|done].
           by apply dict_get_app_l.
        -- repeat constructor. exists (counter_i st + 1). split; [|done].
           by apply dict_get_snoc_fresh.
      * apply Forall2_app.
        -- eapply Forall2_impl; [exact Hcol|].
           intros d' v (c & Hc & ->). exists c. split; [|done].
           by apply dict_get_app_l.
        -- repeat constructor. exists (counter_i st + 1). split; [|done].
           by apply dict_get_snoc_fresh.
    + (* a user nobody knows *)
      rewrite decide_False by (by intros [? ?]).
      rewrite app_nil_r. do 6 (split; [done|]). done.
Qed.

Lemma plot_loop_inv ds : inv ds (loop ds).
Proof.
  induction ds as [|d ds IH] using rev_ind; [apply plot_inv_init|].
  rewrite plot_loop_snoc. by apply plot_inv_step.
Qed.

Lemma plot_labels_length ds :
  length (yticklabels (loop ds)) = length (categories (loop ds)).
Proof.
  destruct (plot_loop_inv ds) as (_ & _ & _ & _ & Hnames & _).
  apply Forall2_length in Hnames. rewrite length_fmap in Hnames.
  by unfold yticklabels.
Qed.

Lemma plot_category_range ds u c :
  dict_get u (categories (loop ds)) = Some c ->
  1 <= c <= Z.of_nat (length (yticklabels (loop ds))).
Proof.
  intros Hc%dict_get_elem. rewrite plot_labels_length.
  destruct (plot_loop_inv ds) as (_ & Hval & _).
  assert (c ∈ (categories (loop ds)).*2) as Hin.
  { apply list_elem_of_fmap. by exists (u, c). }
  rewrite Hval in Hin.
  apply list_elem_of_fmap in Hin as (k & -> & Hk%elem_of_seq). lia.
Qed.

(** X17. The ticks of the vertical axis are 1, 2, ... in the order in which the
    users were first drawn, there is one label per tick, and the label of a
    tick is the name of the user of that category. *)
Theorem plot_ticks_and_labels ds :
  yticks (loop ds) = Z.of_nat <$> seq 1 (length (yticklabels (loop ds)))
  /\ Forall2 (fun item name =>
                exists user, get_user item.1 = Some user
                             /\ name = user_name user)
       (categories (loop ds)) (yticklabels (loop ds))
  /\ NoDup (categories (loop ds)).*1.
Proof.
  rewrite plot_labels_length.
  destruct (plot_loop_inv ds) as (Hnd & Hval & _ & _ & Hnames & _).
  split; [done|]. split; [|done].
  by apply Forall2_fmap_l in Hnames.
Qed.

(** X18. The loop draws the intervals of the users [get_user] knows, all of
    them and in their order, and no other: each as the rectangle and in
    the colour of the category of its user, which is one of the ticks. *)
Theorem plot_draws_known_users ds :
  Forall2 (fun d v =>
             exists c, dict_get (cd_who d) (categories (loop ds)) = Some c
                       /\ 1 <= c <= Z.of_nat (length (yticklabels (loop ds)))
                       /\ v = rect d c)
    (drawn get_user ds) (vertices (loop ds))
  /\ Forall2 (fun d col =>
                exists c, dict_get (cd_who d) (categories (loop ds)) = Some c
                          /\ col = colour_of c)
       (drawn get_user ds) (colours (loop ds)).
Proof.
  destruct (plot_loop_inv ds) as (_ & _ & _ & _ & _ & Hrect & Hcol).
  split; [|done]. eapply Forall2_impl; [exact Hrect|].
  intros d v (c & Hc & ->). exists c. split; [done|]. split; [|done].
  by eapply plot_category_range.
Qed.

(** X19. Two intervals are drawn in the same colour exactly when they are of
    the same user. *)
Theorem plot_colour_per_user ds i j d1 d2 col1 col2 :
  drawn get_user ds !! i = Some d1 -> drawn get_user ds !! j = Some d2 ->
  colours (loop ds) !! i = Some col1 -> colours (loop ds) !! j = Some col2 ->
  col1 = col2 <-> cd_who d1 = cd_who d2.
Proof.
  intros Hd1 Hd2 Hc1 Hc2.
  destruct (plot_loop_inv ds) as (_ & Hval & _ & _ & _ & _ & Hcol).
  destruct (Forall2_lookup_l _ _ _ _ _ Hcol Hd1) as (col1' & Hc1' & c1 & Hg1 & ->).
  destruct (Forall2_lookup_l _ _ _ _ _ Hcol Hd2) as (col2' & Hc2' & c2 & Hg2 & ->).
  assert (col1 = colour_of c1) as -> by congruence.
  assert (col2 = colour_of c2) as -> by congruence.
  split.
  - intros <-%colour_of_inj.
    apply (dict_get_values_inj _ _ c1 (categories (loop ds))); [|done..].
    rewrite Hval. apply NoDup_fmap; [apply _ | apply NoDup_seq].
  - intros Heq. rewrite Heq in Hg1. congruence.
Qed.

End PlotFacts.

Lemma plot_colour_per_user_witness :
  txt "C1" = txt "C1" <-> cd_who (Interval 1 0 10) = cd_who (Interval 1 20 30).
Proof.
  apply (plot_colour_per_user
           (fun u => if bool_decide (u = 3) then None else Some (txt "someone"))
           (fun user => user) (fun t => t)
           (fun c => 10 * c - 4) (fun c => 10 * c + 4)
           [Interval 1 0 10; Interval 3 0 5; Interval 2 5 9; Interval 1 20 30]
           0 2 (Interval 1 0 10) (Interval 1 20 30));
    vm_compute; reflexivity.
Defined.

(** * Text before the record *)

Lemma record_text_head nick uid chan from_chan c rest :
  head (joined_text nick uid chan c ++ rest) = Some "<"%char
  /\ head (left_text nick uid chan c ++ rest) = Some "<"%char
  /\ head (moved_text nick uid from_chan chan c ++ rest) = Some "<"%char.
Proof. done. Qed.

(** X5. The patterns are anchored at the start of the text: a description that
    is empty or does not start with ["<"] is no event, whatever follows. *)
Theorem no_event_without_leading_mention c rest ots target :
  c <> "<"%char ->
  from_embed (mkEmbed (Some (c :: rest)) ots) target = None
  /\ from_embed (mkEmbed (Some []) ots) target = None.
Proof.
  intros Hc. split; [|by destruct ots].
  destruct (from_embed _ target) as [e|] eqn:He; [|done].
  apply from_embed_inv in He
    as (d & ts & nick & uid & ch & tail & Hdesc & _ & _ & _ & _ & _ & _ & Hd).
  simpl in Hdesc. injection Hdesc as <-.
  assert (head (c :: rest) = Some "<"%char) as [= ->]; [|done].
  destruct Hd as [[_ ->]|[[_ ->]|(_ & a & _ & ->)]].
  - apply (record_text_head nick uid target target ch tail).
  - apply (record_text_head nick uid target target ch tail).
  - apply (record_text_head nick uid target a ch tail).
Qed.

Lemma no_event_without_leading_mention_witness :
  from_embed (mkEmbed (Some (txt " <@1> joined **vc**.")) (Some 0)) (txt "vc") = None
  /\ from_embed (mkEmbed (Some []) (Some 0)) (txt "vc") = None.
Proof.
  apply (no_event_without_leading_mention " " (txt "<@1> joined **vc**.")
           (Some 0) (txt "vc")).
  discriminate.
Defined.
